(** * vidsteps: the playback synchronisation engine and the step navigator

    A shallow embedding of [src/vidsteps/__main__.py]: the timestamp
    store ([set_timestamps_for_video], [get_timestamps_for_video]), the
    synchronisation engine ([play_clip]) and the navigator ([main]).

    Conventions of the embedding
    - Times (seconds, milliseconds, frames per second) are rationals [Q];
      [clock.tick] returns an [int] number of milliseconds, a [Z].
      Python computes on floats in binary64: [binary64] is its rounding, to
      the nearest number of 53 significant bits, ties to even (overflow
      and subnormal numbers are left out).  The values that leave the
      arithmetic, the timestamp a mark records and the width
      [resize_keep_aspect_ratio] returns, are rounded with it.  The drift
      of [play_clip] and the progress bars are computed exactly: what is
      stated of them either does not depend on the value of a sum or a
      quotient, or is stated where binary64 computes the same value
      ([binary64_whole]).
    - pygame, moviepy, sqlite3 and json are external.  What the program
      observes of them is an input of the model: the successive results of
      [clock.tick] and of [pygame.event.get()] come from two oracles, a clip
      is its frame rate, duration and number of frames, [video.subclip] and
      the JSON codec are section variables.
    - What the program does to them is recorded in an effect log.
    - Loops that Python runs with [while] take a fuel argument. *)

From Stdlib Require Import ZArith QArith Qround Qpower Lqa Lia Bool.
From Stdlib Require Import Strings.Byte DecimalString DecimalZ DecimalPos.
From stdpp Require Import base gmap strings list sorting.

Local Open Scope Z_scope.

(** ** Numbers *)

(** [x < y] on Python numbers, as a boolean. *)
Definition Qltb (x y : Q) : bool := negb (Qle_bool y x).

(** [int(x)] on a float: truncation toward zero. *)
Definition py_int (x : Q) : Z := Z.quot (Qnum x) (Zpos (Qden x)).

(** The [e] with [2 ^ e <= x < 2 ^ (e + 1)], for a positive [x]. *)
Definition floor_log2 (x : Q) : Z :=
  let l := Z.log2 (Qnum x) - Z.log2 (Zpos (Qden x)) in
  if Qle_bool (2 ^ l) x then l else l - 1.

(** The integer nearest to [y], the even one of two that are as near. *)
Definition round_half_even (y : Q) : Z :=
  let q := Qfloor y in
  match (y - inject_Z q ?= 1 # 2)%Q with
  | Lt => q
  | Gt => q + 1
  | Eq => if Z.even q then q else q + 1
  end.

(** A positive [x] rounded to 53 significant bits: [x] is scaled into
    [2 ^ 52 <= x * 2 ^ (- e) < 2 ^ 53], rounded to an integer and scaled back. *)
Definition binary64_pos (x : Q) : Q :=
  let e := floor_log2 x - 52 in
  (inject_Z (round_half_even (x * 2 ^ (- e))) * 2 ^ e)%Q.

(** The float that Python takes for the exact result [x] of an operation
    on floats. *)
Definition binary64 (x : Q) : Q :=
  match Qnum x with
  | Z0 => 0
  | Zpos _ => Qred (binary64_pos x)
  | Zneg _ => Qred (- binary64_pos (- x))
  end.

(** The largest relative error of [binary64]: [2 ^ (-53)]. *)
Definition unit_roundoff : Q := 1 # 9007199254740992.

(** ** Exceptions, effects and the state the program threads *)

Inductive exn :=
| ValueError
| StopIteration
| ZeroDivisionError
| UnboundLocalError
| IndexError
| JSONDecodeError.

(** [x / y] on Python numbers: [inl] is the exception it raises, [inr] the
    exact quotient, which [binary64] rounds to the float Python returns. *)
Definition py_div (x y : Q) : exn + Q :=
  if Qeq_bool y 0 then inl ZeroDivisionError else inr (x / y)%Q.

(** What the program does to the audio mixer and the display. *)
Inductive effect :=
| AudioWrite            (* clip.audio.write_audiofile(...) *)
| MusicLoad             (* pygame.mixer.music.load *)
| ScreenFill            (* screen.fill((0, 0, 0)) *)
| MusicPlay             (* pygame.mixer.music.play() *)
| Render (i : nat)      (* make_surface, blit, ui_func(..., i), display.flip *)
| MusicPause            (* pygame.mixer.music.pause() *)
| MusicUnpause          (* pygame.mixer.music.unpause() *)
| PygameQuit.           (* pygame.quit() *)

Record state := mkState {
  ticks_taken : nat;          (* calls of clock.tick made so far *)
  polls_taken : nat;          (* calls of pygame.event.get made so far *)
  step_timestamps : list Q;   (* the one list object main, play_clip and the handlers share *)
  effects : list effect       (* newest first *)
}.

(** The effects in the order they happened. *)
Definition trace (s : state) : list effect := rev (effects s).

(** The frames shown, in the order they were shown. *)
Fixpoint rendered (l : list effect) : list nat :=
  match l with
  | [] => []
  | Render i :: l' => i :: rendered l'
  | _ :: l' => rendered l'
  end.

Inductive result (A : Type) :=
| Ok (a : A) (s : state)
| Raise (e : exn) (s : state)
| OutOfFuel (s : state).     (* the model's fuel ran out in state [s] *)
Arguments Ok {A} a s.
Arguments Raise {A} e s.
Arguments OutOfFuel {A} s.

Definition M (A : Type) : Type := state -> result A.

Definition ret {A} (a : A) : M A := fun s => Ok a s.

Definition bind {A B} (m : M A) (k : A -> M B) : M B :=
  fun s => match m s with
           | Ok a s' => k a s'
           | Raise e s' => Raise e s'
           | OutOfFuel s' => OutOfFuel s'
           end.

Definition raise {A} (e : exn) : M A := fun s => Raise e s.

Definition out_of_fuel {A} : M A := fun s => OutOfFuel s.

(** A computation without effects, which returns or raises. *)
Definition lift {A} (r : exn + A) : M A :=
  match r with
  | inl e => raise e
  | inr a => ret a
  end.

Declare Scope prog_scope.
Delimit Scope prog_scope with prog.
Notation "'let*' x ':=' m 'in' k" := (bind m (fun x => k))
  (at level 10, x pattern, m at level 100, k at level 200) : prog_scope.
Notation "m ;; k" := (bind m (fun _ => k))
  (at level 100, right associativity) : prog_scope.
Local Open Scope prog_scope.

Definition emit (e : effect) : M unit :=
  fun s => Ok tt (mkState (ticks_taken s) (polls_taken s) (step_timestamps s) (e :: effects s)).

Definition when (b : bool) (m : M unit) : M unit := if b then m else ret tt.

(** [step_timestamps.append(x)] *)
Definition append_step (x : Q) : M unit :=
  fun s => Ok tt (mkState (ticks_taken s) (polls_taken s) (step_timestamps s ++ [x]) (effects s)).

Definition get_steps : M (list Q) := fun s => Ok (step_timestamps s) s.

(** A Python local that may not be bound yet. *)
Inductive pyvar (A : Type) := Unbound | Bound (a : A).
Arguments Unbound {A}.
Arguments Bound {A} a.

Definition read {A} (v : pyvar A) : M A :=
  match v with
  | Bound a => ret a
  | Unbound => raise UnboundLocalError
  end.

(** ** Input events *)

Inductive key :=
| K_p | K_SPACE | K_RETURN | K_c | K_q
| K_RIGHT | K_j | K_l | K_LEFT | K_k | K_h
| K_0 | K_BACKSPACE | K_other.

(** A key press carries whether [pygame.key.get_mods() & KMOD_CTRL] holds
    when the handler looks at it. *)
Inductive event :=
| QUIT
| KEYDOWN (k : key) (ctrl : bool)
| OtherEvent.

(** A navigation request: Python's [None], [-1], [0] or [1]. *)
Definition delta := option Z.

(** What a handler returns: [(running, paused, step_delta)]. *)
Definition controls : Type := bool * bool * delta.

Definition ctl_running (r : controls) : bool := fst (fst r).
Definition ctl_paused (r : controls) : bool := snd (fst r).
Definition ctl_delta (r : controls) : delta := snd r.

(** ** Clips *)

Record clip := mkClip {
  fps : Q;
  duration : Q;
  nframes : nat      (* how many frames clip.iter_frames yields *)
}.

(** [for x in xs: acc = body(acc, x)] *)
Fixpoint for_each {A B} (body : A -> B -> M A) (xs : list B) (acc : A) : M A :=
  match xs with
  | [] => ret acc
  | x :: xs' => let* acc' := body acc x in for_each body xs' acc'
  end.

Section Engine.

(** The k-th call of [clock.tick] returns [tick_at k] milliseconds; the
    k-th call of [pygame.event.get()] returns [events_at k]. *)
Variable tick_at : nat -> Z.
Variable events_at : nat -> list event.

Definition clock_tick : M Z :=
  fun s => Ok (tick_at (ticks_taken s))
              (mkState (S (ticks_taken s)) (polls_taken s) (step_timestamps s) (effects s)).

Definition pygame_event_get : M (list event) :=
  fun s => Ok (events_at (polls_taken s))
              (mkState (ticks_taken s) (S (polls_taken s)) (step_timestamps s) (effects s)).

(** *** The two input handlers of [main] *)

Definition record_event (c : clip) (frame_idx : nat) (acc : bool * bool) (e : event)
  : M (bool * bool) :=
  let '(running, paused) := acc in
  match e with
  | QUIT => ret (false, paused)
  | KEYDOWN K_p _ => ret (running, negb paused)
  | KEYDOWN K_SPACE _ | KEYDOWN K_RETURN _ =>
      let* step := lift (py_div (inject_Z (Z.of_nat frame_idx)) (fps c)) in
      append_step (binary64 step) ;; ret (running, paused)
  | KEYDOWN K_c true | KEYDOWN K_q _ => ret (false, paused)
  | _ => ret (running, paused)
  end.

Definition record_event_func (c : clip) (frame_idx : nat) (paused : bool) : M controls :=
  let* evs := pygame_event_get in
  let* (running, paused) := for_each (record_event c frame_idx) evs (true, paused) in
  ret (running, paused, None).

Definition play_event (acc : controls) (e : event) : controls :=
  let '(running, paused, step_delta) := acc in
  match e with
  | QUIT => (false, paused, step_delta)
  | KEYDOWN K_RETURN _ | KEYDOWN K_SPACE _ | KEYDOWN K_RIGHT _
  | KEYDOWN K_j _ | KEYDOWN K_l _ => (running, paused, Some 1)
  | KEYDOWN K_LEFT _ | KEYDOWN K_k _ | KEYDOWN K_h _ => (running, paused, Some (-1))
  | KEYDOWN K_p _ => (running, negb paused, step_delta)
  | KEYDOWN K_0 _ | KEYDOWN K_BACKSPACE _ => (running, paused, Some 0)
  | KEYDOWN K_c true | KEYDOWN K_q _ => (false, paused, step_delta)
  | _ => (running, paused, step_delta)
  end.

Definition play_event_func (c : clip) (frame_idx : nat) (paused : bool) : M controls :=
  let* evs := pygame_event_get in
  ret (fold_left play_event evs (true, paused, None)).

(** *** play_clip *)

Variable event_func : clip -> nat -> bool -> M controls.

(** The locals of [play_clip] that live across frames and passes. *)
Record locals := mkLocals {
  current_video_delay_ms : Q;
  running : bool;
  step_delta : pyvar delta
}.

Inductive flow := Continue | Break.

(** [while current_video_delay_ms < -1 * ms_per_frame:
       current_video_delay_ms += clock.tick(clip.fps)] *)
Fixpoint wait_loop (fuel : nat) (ms_per_frame delay : Q) : M Q :=
  if Qltb delay (-1 * ms_per_frame)%Q then
    match fuel with
    | O => out_of_fuel
    | S fuel' => let* t := clock_tick in wait_loop fuel' ms_per_frame (delay + inject_Z t)%Q
    end
  else ret delay.

(** [while paused and running:
       running, paused, step_delta = event_func(..., paused=True)
       clock.tick(clip.fps)] *)
Fixpoint paused_loop (fuel : nat) (c : clip) (i : nat) (r : controls) : M controls :=
  if ctl_paused r && ctl_running r then
    match fuel with
    | O => out_of_fuel
    | S fuel' =>
        let* r' := event_func c i true in
        clock_tick ;;
        paused_loop fuel' c i r'
    end
  else ret r.

(** Lines 135 to 148: poll the input, sit out a pause, then leave the
    [for] loop or account for the time the frame took.  [d] is the value
    of [current_video_delay_ms]. *)
Definition poll_input (fuel : nat) (c : clip) (ms_per_frame : Q) (i : nat) (d : Q)
  : M (flow * locals) :=
  let* r := event_func c i false in
  let was_paused := ctl_paused r in
  when (ctl_paused r) (emit MusicPause) ;;
  let* r := paused_loop fuel c i r in
  when was_paused (emit MusicUnpause) ;;
  if negb (ctl_running r) || bool_decide (ctl_delta r <> None) then
    ret (Break, mkLocals d (ctl_running r) (Bound (ctl_delta r)))
  else
    let* t := clock_tick in
    ret (Continue,
         mkLocals (d + (inject_Z t - ms_per_frame))%Q (ctl_running r) (Bound (ctl_delta r))).

(** A frame that is neither dropped nor waited for any longer: lines
    130 to 148. *)
Definition show_frame (fuel : nat) (c : clip) (ms_per_frame : Q) (i : nat) (d : Q)
  : M (flow * locals) :=
  emit (Render i) ;;
  poll_input fuel c ms_per_frame i d.

(** The body of [for i, frame in enumerate(frame_generator)]. *)
Definition frame_body (fuel : nat) (c : clip) (ms_per_frame : Q) (i : nat) (L : locals)
  : M (flow * locals) :=
  if Qltb ms_per_frame (current_video_delay_ms L) then
    ret (Continue,
         mkLocals (current_video_delay_ms L - ms_per_frame)%Q (running L) (step_delta L))
  else
    let* d := wait_loop fuel ms_per_frame (current_video_delay_ms L) in
    show_frame fuel c ms_per_frame i d.

Fixpoint frame_loop (fuel : nat) (c : clip) (ms_per_frame : Q) (frames : list nat) (L : locals)
  : M locals :=
  match frames with
  | [] => ret L
  | i :: frames' =>
      let* (fl, L') := frame_body fuel c ms_per_frame i L in
      match fl with
      | Continue => frame_loop fuel c ms_per_frame frames' L'
      | Break => ret L'
      end
  end.

(** [step_delta in [-1, 1]] *)
Definition is_advance_or_rewind (d : delta) : bool :=
  match d with
  | Some z => (z =? -1) || (z =? 1)
  | None => false
  end.

(** [not repeat or not running or step_delta in [-1, 1]], left to right. *)
Definition stop_looping (repeat : bool) (L : locals) : M bool :=
  if negb repeat then ret true
  else if negb (running L) then ret true
  else let* d := read (step_delta L) in ret (is_advance_or_rewind d).

(** One turn of [while True]: everything from [screen.fill] to the end of
    the [for] loop. *)
Definition one_pass (fuel : nat) (c : clip) (ms_per_frame : Q) (L : locals) : M locals :=
  emit ScreenFill ;;
  (* next(frame_generator) on a clip without frames *)
  (if Nat.eqb (nframes c) 0 then raise StopIteration else ret tt) ;;
  emit MusicPlay ;;
  frame_loop fuel c ms_per_frame (seq 0 (nframes c)) L.

Fixpoint pass_loop (fuel : nat) (c : clip) (ms_per_frame : Q) (repeat : bool) (L : locals)
  : M (bool * delta) :=
  match fuel with
  | O => out_of_fuel
  | S fuel' =>
      let* L' := one_pass fuel' c ms_per_frame L in
      let* stop := stop_looping repeat L' in
      if stop then
        let* d := read (step_delta L') in ret (running L', d)
      else pass_loop fuel' c ms_per_frame repeat L'
  end.

Definition play_clip (fuel : nat) (c : clip) (repeat : bool) : M (bool * delta) :=
  emit AudioWrite ;;
  emit MusicLoad ;;
  if Qeq_bool (fps c) 0 then raise ZeroDivisionError
  else
    let ms_per_frame := (1000 / fps c)%Q in
    pass_loop fuel c ms_per_frame repeat (mkLocals 0 true Unbound).


End Engine.

(** ** The timestamp store

    The table [video_timestamps (path TEXT PRIMARY KEY, timestamps BLOB)],
    as [init_database] leaves it, is a finite map from paths to blobs.
    [json.dumps] and [json.loads] are the library's; the store is stated
    over any codec.  [json.dumps] writes ASCII only, so that
    [.encode("utf8")] and [.decode("utf8")] keep the bytes as they are. *)

Definition encode_utf8 (s : string) : list byte := String.list_byte_of_string s.
Definition decode_utf8 (b : list byte) : string := String.string_of_list_byte b.

Section TimestampStore.

Variable T : Type.
Variable json_dumps : list T -> string.
(** [None] stands for [json.JSONDecodeError]. *)
Variable json_loads : string -> option (list T).

(** [INSERT INTO video_timestamps (path, timestamps) VALUES (?, ?)
     ON CONFLICT (path) DO UPDATE SET timestamps = excluded.timestamps] *)
Definition set_timestamps_for_video (cursor : gmap string (list byte))
    (video_path : string) (timestamps : list T) : gmap string (list byte) :=
  <[video_path := encode_utf8 (json_dumps timestamps)]> cursor.

(** [SELECT timestamps FROM video_timestamps WHERE path = ?]; [next] on
    an empty result raises [StopIteration], which is caught.  [inl] is
    an exception that leaves the function. *)
Definition get_timestamps_for_video (cursor : gmap string (list byte))
    (video_path : string) : exn + list T :=
  match cursor !! video_path with
  | Some blob =>
      match json_loads (decode_utf8 blob) with
      | Some timestamps => inr timestamps
      | None => inl JSONDecodeError
      end
  | None => inr []
  end.

End TimestampStore.

Arguments set_timestamps_for_video {T} json_dumps cursor video_path timestamps.
Arguments get_timestamps_for_video {T} json_loads cursor video_path.

(** ** The navigator *)

(** [l[i]] on a Python list: a negative index counts from the end. *)
Definition py_getitem {A} (l : list A) (i : Z) : option A :=
  if 0 <=? i then l !! Z.to_nat i
  else if - Z.of_nat (length l) <=? i then l !! Z.to_nat (Z.of_nat (length l) + i)
  else None.

Definition set_steps (l : list Q) : M unit :=
  fun s => Ok tt (mkState (ticks_taken s) (polls_taken s) l (effects s)).

Record segment := mkSegment { clip_start : Q; clip_end : Q }.

(** [clip_start = step_timestamps[step_idx]]
    [clip_end = step_timestamps[step_idx+1] if step_idx+1 < len(step_timestamps)
                else int(video.duration)] *)
Definition segment_at (steps : list Q) (video_duration : Q) (step_idx : Z) : exn + segment :=
  match py_getitem steps step_idx with
  | None => inl IndexError
  | Some start =>
      if step_idx + 1 <? Z.of_nat (length steps) then
        match py_getitem steps (step_idx + 1) with
        | Some stop => inr (mkSegment start stop)
        | None => inl IndexError
        end
      else inr (mkSegment start (inject_Z (py_int video_duration)))
  end.

(** [step_delta or 0] *)
Definition delta_or_0 (d : delta) : Z :=
  match d with
  | Some z => z
  | None => 0
  end.

(** [step_idx += step_delta or 0; step_idx = max(step_idx, 0)] *)
Definition next_step_idx (step_idx : Z) (d : delta) : Z :=
  Z.max (step_idx + delta_or_0 d) 0.

Section Navigator.

Variable tick_at : nat -> Z.
Variable events_at : nat -> list event.

(** [video.subclip(clip_start, clip_end)], moviepy's. *)
Variable subclip : clip -> Q -> Q -> exn + clip.

Variable json_dumps : list Q -> string.
Variable json_loads : string -> option (list Q).

(** [while running and step_idx < len(step_timestamps)]; the result is
    [(running, step_idx)] when the loop is left. *)
Fixpoint play_steps (fuel : nat) (video : clip) (running : bool) (step_idx : Z)
  : M (bool * Z) :=
  let* steps := get_steps in
  if running && (step_idx <? Z.of_nat (length steps)) then
    match fuel with
    | O => out_of_fuel
    | S fuel' =>
        let* seg := lift (segment_at steps (duration video) step_idx) in
        match subclip video (clip_start seg) (clip_end seg) with
        | inl ValueError => ret (false, step_idx)
        | inl e => raise e
        | inr c =>
            let* (running, step_delta) :=
              play_clip tick_at (play_event_func events_at) fuel' c true in
            play_steps fuel' video running (next_step_idx step_idx step_delta)
        end
    end
  else ret (running, step_idx).

(** The branch [if len(step_timestamps) == 0] of [main]. *)
Definition record_steps (fuel : nat) (video_path : string) (video : clip)
    (database : gmap string (list byte)) : M (bool * gmap string (list byte)) :=
  let* (running, _) := play_clip tick_at (record_event_func events_at) fuel video false in
  let* steps := get_steps in
  ret (running, set_timestamps_for_video json_dumps database video_path steps).

(** [main], from reading the stored timestamps on; [record] is the
    [--record] flag.  The result is the database it leaves. *)
Definition main (fuel : nat) (record : bool) (video_path : string) (video : clip)
    (database : gmap string (list byte)) : M (gmap string (list byte)) :=
  let* loaded :=
    (if record then ret []
     else lift (get_timestamps_for_video json_loads database video_path)) in
  set_steps loaded ;;
  let* (running, database) :=
    (if Nat.eqb (length loaded) 0 then record_steps fuel video_path video database
     else ret (true, database)) in
  play_steps fuel video running 0 ;;
  emit PygameQuit ;;
  ret database.

End Navigator.

(** ** Notions the statements use *)

(** The state in which a run returns, raises or is cut off. *)
Definition final_state {A} (r : result A) : state :=
  match r with
  | Ok _ s | Raise _ s | OutOfFuel s => s
  end.

(** [P] holds of the state a run ends in, however it ends. *)
Definition ends_in {A} (r : result A) (P : state -> Prop) : Prop := P (final_state r).

(** Whatever the action [m] does, it takes a state to one related by [R]. *)
Definition keeps (R : state -> state -> Prop) {A} (m : M A) : Prop :=
  forall s, ends_in (m s) (R s).

(** The frames shown so far, oldest first. *)
Definition shown (s : state) : list nat := rendered (trace s).

(** Between [s] and [s'] the step list was left alone. *)
Definition same_steps (s s' : state) : Prop := step_timestamps s' = step_timestamps s.

(** Between [s] and [s'] no frame was shown. *)
Definition same_frames (s s' : state) : Prop := shown s' = shown s.

(** Between [s] and [s'] some of [frames] were shown, in the order of
    [frames] and none of them twice. *)
Definition more_frames (frames : list nat) (s s' : state) : Prop :=
  exists new : list nat, shown s' = shown s ++ new /\ sublist new frames.

(** Between [s] and [s'] effects were added, all of them satisfying [P]. *)
Definition appends (P : effect -> Prop) (s s' : state) : Prop :=
  exists new : list effect, effects s' = new ++ effects s /\ Forall P new.


(** A handler that leaves the audio mixer and the display alone. *)
Definition silent (event_func : clip -> nat -> bool -> M controls) : Prop :=
  forall c i paused s, ends_in (event_func c i paused s) (fun s' => effects s' = effects s).

(** The late-frame scenario as the specification words it: of the frames
    after frame [i], the next two are not shown and the third is. *)
Definition drops_two_then_renders (frames_shown : list nat) (i : nat) : Prop :=
  ~ In (i + 1)%nat frames_shown /\ ~ In (i + 2)%nat frames_shown /\ In (i + 3)%nat frames_shown.

(** An event that is neither a request to leave nor a pause toggle. *)
Definition not_quit_or_pause (e : event) : bool :=
  match e with
  | QUIT => false
  | KEYDOWN K_p _ => false
  | KEYDOWN K_q _ => false
  | KEYDOWN K_c true => false
  | _ => true
  end.

(** Locals in which nobody has asked to leave or to navigate. *)
Definition calm (L : locals) : Prop := running L = true /\ step_delta L = Bound None.

(** The values [step_idx] takes while the navigator applies [deltas]. *)
Fixpoint step_indices (step_idx : Z) (deltas : list delta) : list Z :=
  match deltas with
  | [] => [step_idx]
  | d :: deltas' => step_idx :: step_indices (next_step_idx step_idx d) deltas'
  end.

(** Each timestamp is smaller than the one after it. *)
Definition strictly_increasing (steps : list Q) : Prop :=
  forall (i : nat) (a b : Q), steps !! i = Some a -> steps !! S i = Some b -> (a < b)%Q.

(** What the store holds after a sequence of writes to an empty table. *)
Definition store_after {T} (json_dumps : list T -> string)
    (writes : list (string * list T)) : gmap string (list byte) :=
  foldl (fun cursor w => set_timestamps_for_video json_dumps cursor w.1 w.2) ∅ writes.

(** ** Concrete inputs *)

(** Nothing done yet: no tick, no poll, no step, no effect. *)
Definition start : state := mkState 0 0 [] [].

(** A clip of [n] frames at 25 frames per second: 40 ms per frame. *)
Definition clip_25fps (n : nat) : clip := mkClip 25 (inject_Z (Z.of_nat n) / 25)%Q n.

Definition no_events : nat -> list event := fun _ => [].

(** The first frame takes 120 ms, three frame intervals; the others 40 ms. *)
Definition late_first_frame : nat -> Z :=
  fun k => match k with O => 120 | _ => 40 end.


Definition on_time : nat -> Z := fun _ => 40.


(** The user pauses at the first poll, asks for the next step while the
    clip is paused, and resumes at the third poll. *)
Definition advance_while_paused : nat -> list event :=
  fun k => match k with
           | 0%nat => [KEYDOWN K_p false]
           | 1%nat => [KEYDOWN K_RIGHT false]
           | 2%nat => [KEYDOWN K_p false]
           | _ => []
           end.

(** The user rewinds at the first poll and leaves at the second. *)
Definition rewind_then_quit : nat -> list event :=
  fun k => match k with
           | 0%nat => [KEYDOWN K_LEFT false]
           | _ => [QUIT]
           end.

(** A stand-in for moviepy's [subclip]: a range error when the start is
    not before the end of the video or the end is not after the start. *)
Definition subclip_25fps (video : clip) (t_start t_end : Q) : exn + clip :=
  if Qle_bool (duration video) t_start || Qle_bool t_end t_start then inl ValueError
  else inr (mkClip (fps video) (t_end - t_start)%Q 2).

(** A video of 20 seconds at 25 frames per second. *)
Definition video_20s : clip := mkClip 25 20 500.

(** The navigator about to play, with the given steps loaded. *)
Definition loaded (steps : list Q) : state := mkState 0 0 steps [].

(** ** A JSON codec for lists of integers

    What [json.dumps] writes for a list of [int]s, ["[1, -2, 30]"], and a
    reader for it; an instance of the codec the store is stated over. *)

Module IntJson.

Import Stdlib.Strings.Ascii.
Local Open Scope string_scope.

Definition dumps_int (z : Z) : string := NilZero.string_of_int (Z.to_int z).

Definition loads_int (s : string) : option Z :=
  option_map Z.of_int (NilZero.int_of_string s).

(** [", ".join(items)] *)
Fixpoint join (items : list string) : string :=
  match items with
  | [] => EmptyString
  | [x] => x
  | x :: items' => x ++ ", " ++ join items'
  end.

Definition dumps (l : list Z) : string := "[" ++ join (map dumps_int l) ++ "]".

(** Reads the items after the opening bracket; [tok] is the part of the
    current item read so far. *)
Fixpoint scan (tok : string) (s : string) : option (list Z) :=
  match s with
  | EmptyString => None
  | String a s' =>
      if Ascii.eqb a ","%char then
        match loads_int tok, scan EmptyString s' with
        | Some z, Some l => Some (z :: l)
        | _, _ => None
        end
      else if Ascii.eqb a "]"%char then
        match s', loads_int tok with
        | EmptyString, Some z => Some [z]
        | _, _ => None
        end
      else if Ascii.eqb a " "%char then
        match tok with
        | EmptyString => scan tok s'
        | _ => None
        end
      else scan (tok ++ String a EmptyString) s'
  end.

Definition loads (s : string) : option (list Z) :=
  match s with
  | String a s' =>
      if Ascii.eqb a "["%char then
        if String.eqb s' "]" then Some [] else scan EmptyString s'
      else None
  | EmptyString => None
  end.

(** A character of an item: not a comma, a closing bracket or a space. *)
Definition item_char (a : ascii) : bool :=
  negb (Ascii.eqb a ","%char) && negb (Ascii.eqb a "]"%char) && negb (Ascii.eqb a " "%char).

Fixpoint item_chars (s : string) : bool :=
  match s with
  | EmptyString => true
  | String a s' => item_char a && item_chars s'
  end.

End IntJson.

(** The user marks a step when frame 50 is shown, two seconds into the
    video, and does nothing else. *)
Definition mark_at_two_seconds : nat -> list event :=
  fun k => if Nat.eqb k 50 then [KEYDOWN K_SPACE false] else [].

(** The user marks a step when frame 25 is shown, one second into the
    video, and closes the window when frame 30 is shown. *)
Definition mark_then_quit : nat -> list event :=
  fun k => if Nat.eqb k 25 then [KEYDOWN K_SPACE false]
           else if Nat.eqb k 30 then [QUIT] else [].

(** A stand-in for [json.dumps] on the recorded steps: whole seconds. *)
Definition dumps_whole_seconds (steps : list Q) : string :=
  IntJson.dumps (map py_int steps).

(** ** UI helpers

    What the two drawing helpers hand to pygame, in the order they do: a
    rectangle or a circle with its colour.  The screen is its width and
    height in pixels. *)

(** [resize_keep_aspect_ratio(original_width, original_height, new_height)];
    the quotient and the product are rounded as Python rounds them. *)
Definition resize_keep_aspect_ratio (original_width original_height new_height : Q)
  : exn + (Z * Z) :=
  match py_div original_width original_height with
  | inl e => inl e
  | inr quotient =>
      let aspect_ratio := binary64 quotient in
      let new_width := binary64 (new_height * aspect_ratio) in
      inr (py_int new_width, py_int new_height)
  end.

Inductive colour := Green | Red | White.

(** The arguments of [pygame.Rect(left, top, width, height)]. *)
Record rect := mkRect {
  rect_left : Q;
  rect_top : Q;
  rect_width : Q;
  rect_height : Q
}.

Inductive drawing :=
| DrawRect (col : colour) (r : rect)               (* pygame.draw.rect(screen, col, r) *)
| DrawCircle (col : colour) (x y radius : Z).      (* pygame.draw.circle(screen, col, (x, y), radius) *)

Record screen := mkScreen {
  get_width : Z;
  get_height : Z
}.

(** The loop [for step in step_timestamps] of [draw_progress_bar]: one
    white marker per step, until a division fails. *)
Fixpoint draw_step_markers (video_duration : Q) (scr : screen) (full_progress_bar_height : Q)
    (step_timestamps : list Q) : list drawing * option exn :=
  match step_timestamps with
  | [] => ([], None)
  | step :: steps' =>
      match py_div step video_duration with
      | inl e => ([], Some e)
      | inr step_percent =>
          let marker :=
            DrawRect White
              (mkRect (step_percent * inject_Z (get_width scr))%Q
                      (inject_Z (get_height scr) - full_progress_bar_height)%Q
                      1 full_progress_bar_height) in
          let '(rest, err) :=
            draw_step_markers video_duration scr full_progress_bar_height steps' in
          (marker :: rest, err)
      end
  end.

(** [draw_progress_bar]: what is drawn, in order, and the exception that
    ended the drawing, if one did. *)
Definition draw_progress_bar (clip_fps clip_start clip_end video_duration : Q) (scr : screen)
    (frame_idx : nat) (draw_clip : bool) (step_timestamps : list Q)
  : list drawing * option exn :=
  let progress_bar_height := 50%Q in
  let frame := inject_Z (Z.of_nat frame_idx) in
  let clip_bar : list drawing * (exn + Q) :=
    if draw_clip then
      match py_div frame (clip_fps * (clip_end - clip_start))%Q with
      | inl e => ([], inl e)
      | inr clip_progress_percent =>
          let clip_progress_bar_width :=
            py_int (inject_Z (get_width scr) * clip_progress_percent)%Q in
          ([DrawRect Green
              (mkRect 0 (inject_Z (get_height scr) - progress_bar_height)%Q
                      (inject_Z clip_progress_bar_width) (progress_bar_height / 2)%Q)],
           inr (progress_bar_height / 2)%Q)
      end
    else ([], inr progress_bar_height) in
  match clip_bar with
  | (drawn, inl e) => (drawn, Some e)
  | (drawn, inr full_progress_bar_height) =>
      match py_div (clip_fps * clip_start + frame)%Q (clip_fps * video_duration)%Q with
      | inl e => (drawn, Some e)
      | inr full_progress_percent =>
          let full_progress_bar_width :=
            py_int (inject_Z (get_width scr) * full_progress_percent)%Q in
          let full_bar :=
            DrawRect Red
              (mkRect 0 (inject_Z (get_height scr) - full_progress_bar_height)%Q
                      (inject_Z full_progress_bar_width) full_progress_bar_height) in
          let '(markers, err) :=
            draw_step_markers video_duration scr full_progress_bar_height step_timestamps in
          (drawn ++ full_bar :: markers, err)
      end
  end.

(** [draw_recording_circle] *)
Definition draw_recording_circle : list drawing := [DrawCircle Red 75 75 50].

(** [record_ui_func] of [main]: the circle is drawn when the progress bar
    was drawn without an exception. *)
Definition record_ui_func (scr : screen) (c : clip) (step_timestamps : list Q) (frame_idx : nat)
  : list drawing * option exn :=
  match draw_progress_bar (fps c) 0 (duration c) (duration c) scr frame_idx false
          step_timestamps with
  | (drawn, None) => (drawn ++ draw_recording_circle, None)
  | (drawn, Some e) => (drawn, Some e)
  end.

(** [play_ui_func] of [main], for the segment from [clip_start] to
    [clip_end] of [video]. *)
Definition play_ui_func (video : clip) (seg : segment) (scr : screen) (c : clip)
    (step_timestamps : list Q) (frame_idx : nat) : list drawing * option exn :=
  draw_progress_bar (fps c) (clip_start seg) (clip_end seg) (duration video) scr frame_idx true
    step_timestamps.

(** The width of the red bar among the things drawn, if it was drawn. *)
Fixpoint red_bar_width (drawn : list drawing) : option Q :=
  match drawn with
  | [] => None
  | DrawRect Red r :: _ => Some (rect_width r)
  | _ :: drawn' => red_bar_width drawn'
  end.

(** The left edges of the white markers among the things drawn. *)
Fixpoint marker_lefts (drawn : list drawing) : list Q :=
  match drawn with
  | [] => []
  | DrawRect White r :: drawn' => rect_left r :: marker_lefts drawn'
  | _ :: drawn' => marker_lefts drawn'
  end.

(** ** Notions the further statements use *)

(** An event on which both handlers set [running] to false. *)
Definition is_quit_event (e : event) : bool :=
  match e with
  | QUIT => true
  | KEYDOWN K_q _ => true
  | KEYDOWN K_c true => true
  | _ => false
  end.

(** A press of the pause key. *)
Definition is_pause_key (e : event) : bool :=
  match e with
  | KEYDOWN K_p _ => true
  | _ => false
  end.

(** A press of a key that marks a step while recording. *)
Definition is_mark_key (e : event) : bool :=
  match e with
  | KEYDOWN K_SPACE _ | KEYDOWN K_RETURN _ => true
  | _ => false
  end.

(** The navigation request a key stands for during playback, if any. *)
Definition nav_delta (e : event) : option Z :=
  match e with
  | KEYDOWN K_RETURN _ | KEYDOWN K_SPACE _ | KEYDOWN K_RIGHT _
  | KEYDOWN K_j _ | KEYDOWN K_l _ => Some 1
  | KEYDOWN K_LEFT _ | KEYDOWN K_k _ | KEYDOWN K_h _ => Some (-1)
  | KEYDOWN K_0 _ | KEYDOWN K_BACKSPACE _ => Some 0
  | _ => None
  end.

(** How many of the events satisfy [p]. *)
Fixpoint count_events (p : event -> bool) (evs : list event) : nat :=
  match evs with
  | [] => 0
  | e :: evs' => (if p e then 1 else 0) + count_events p evs'
  end.


(** How often the audio was paused, and resumed, among some effects. *)
Fixpoint pauses (l : list effect) : nat :=
  match l with
  | [] => 0
  | MusicPause :: l' => S (pauses l')
  | _ :: l' => pauses l'
  end.

Fixpoint unpauses (l : list effect) : nat :=
  match l with
  | [] => 0
  | MusicUnpause :: l' => S (unpauses l')
  | _ :: l' => unpauses l'
  end.

(** Between [s] and [s'] the audio was resumed as often as it was paused. *)
Definition pause_balanced (s s' : state) : Prop :=
  exists new : list effect,
    effects s' = new ++ effects s /\ pauses new = unpauses new.

(** An effect of showing a frame and sitting out a pause. *)
Definition frame_effect (e : effect) : Prop :=
  (exists i, e = Render i) \/ e = MusicPause \/ e = MusicUnpause.

(** An effect other than [pygame.quit()]. *)
Definition not_pygame_quit (e : effect) : Prop := e <> PygameQuit.

(** An action that, when it returns, has taken the state to one related
    by [R]. *)
Definition returns_keeping (R : state -> state -> Prop) {A} (m : M A) : Prop :=
  forall s a s', m s = Ok a s' -> R s s'.

(** Between [s] and [s'] the audio mixer and the display were left alone. *)
Definition same_effects (s s' : state) : Prop := effects s' = effects s.

(** A stand-in for [json.loads] on stored steps: whole seconds. *)
Definition loads_whole_seconds (s : string) : option (list Q) :=
  option_map (map inject_Z) (IntJson.loads s).

(** * Properties *)

(** ** Numbers *)

Lemma Qltb_lt (x y : Q) : Qltb x y = true <-> (x < y)%Q.
Proof.
  unfold Qltb. rewrite negb_true_iff, <- not_true_iff_false, Qle_bool_iff.
  split; [apply Qnot_le_lt | apply Qlt_not_le].
Qed.

Lemma Qltb_ge (x y : Q) : Qltb x y = false <-> (y <= x)%Q.
Proof.
  unfold Qltb. rewrite negb_false_iff. apply Qle_bool_iff.
Qed.

Lemma py_div_zero (x y : Q) : (y == 0)%Q -> py_div x y = inl ZeroDivisionError.
Proof. intros Hy. unfold py_div. apply Qeq_bool_iff in Hy. by rewrite Hy. Qed.

Lemma py_div_nonzero (x y : Q) : ~ (y == 0)%Q -> py_div x y = inr (x / y)%Q.
Proof.
  intros Hy. unfold py_div.
  destruct (Qeq_bool y 0) eqn:Heq; [| reflexivity].
  apply Qeq_bool_iff in Heq. contradiction.
Qed.

(** *** Rounding *)

Lemma Qpower2_pos (e : Z) : (0 < 2 ^ e)%Q.
Proof. apply Qpower_0_lt. reflexivity. Qed.

Lemma Qpower2_cancel (e : Z) : (2 ^ (- e) * 2 ^ e == 1)%Q.
Proof.
  rewrite <- Qpower_plus by discriminate.
  replace (- e + e) with 0 by lia. reflexivity.
Qed.

Lemma Qpower2_inject (n : Z) : 0 <= n -> (2 ^ n == inject_Z (2 ^ n))%Q.
Proof. intros Hn. symmetry. apply (Zpower_Qpower 2 n Hn). Qed.

Lemma floor_log2_le (x : Q) : (0 < x)%Q -> (2 ^ floor_log2 x <= x)%Q.
Proof.
  intros Hx. unfold floor_log2.
  set (a := Z.log2 (Qnum x)). set (b := Z.log2 (Zpos (Qden x))).
  destruct (Qle_bool (2 ^ (a - b)) x) eqn:Hle; [by apply Qle_bool_iff |].
  assert (0 < Qnum x) as Hn.
  { destruct x as [n d]. unfold Qlt in Hx. cbn in *. lia. }
  pose proof (Z.log2_spec (Qnum x) Hn) as [Ha _]. fold a in Ha.
  pose proof (Z.log2_spec (Zpos (Qden x)) (Pos2Z.is_pos _)) as [_ Hb]. fold b in Hb.
  pose proof (Z.log2_nonneg (Qnum x)) as Ha0. fold a in Ha0.
  pose proof (Z.log2_nonneg (Zpos (Qden x))) as Hb0. fold b in Hb0.
  replace (a - b - 1) with (a + - (b + 1)) by lia.
  rewrite Qpower_plus by discriminate. rewrite Qpower_opp.
  rewrite (Qpower2_inject a), (Qpower2_inject (b + 1)) by lia.
  replace (Z.succ b) with (b + 1) in Hb by lia.
  assert (0 < 2 ^ a) as Hpa by (apply Z.pow_pos_nonneg; lia).
  assert (0 < 2 ^ (b + 1)) as Hpb by (apply Z.pow_pos_nonneg; lia).
  assert (x == inject_Z (Qnum x) / inject_Z (QDen x))%Q as ->.
  { rewrite <- Qmake_Qdiv. by destruct x. }
  rewrite Zle_Qle in Ha. apply Z.lt_le_incl in Hb. rewrite Zle_Qle in Hb.
  assert (0 < inject_Z (2 ^ a))%Q as Hqa.
  { change 0%Q with (inject_Z 0). by rewrite <- Zlt_Qlt. }
  assert (0 < inject_Z (QDen x))%Q as Hqd.
  { change 0%Q with (inject_Z 0). rewrite <- Zlt_Qlt. lia. }
  generalize dependent (inject_Z (2 ^ a)).
  generalize dependent (inject_Z (2 ^ (b + 1))).
  generalize dependent (inject_Z (Qnum x)).
  generalize dependent (inject_Z (QDen x)).
  intros qd Hqd qn qb Hdb qa Hab Hqa.
  apply Qle_shift_div_l; [exact Hqd |].
  assert (qa * / qb * qb == qa)%Q as Heq by (field; lra).
  assert (0 <= qa * / qb)%Q as Hpos.
  { apply Qmult_le_0_compat; [lra |]. apply Qlt_le_weak, Qinv_lt_0_compat. lra. }
  assert (qa * / qb * qd <= qa * / qb * qb)%Q as Hmono.
  { rewrite !(Qmult_comm (qa * / qb)). by apply Qmult_le_compat_r. }
  lra.
Qed.

Lemma round_half_even_near (y : Q) :
  (inject_Z (round_half_even y) - (1 # 2) <= y <= inject_Z (round_half_even y) + (1 # 2))%Q.
Proof.
  unfold round_half_even.
  pose proof (Qfloor_le y) as Hlo. pose proof (Qlt_floor y) as Hhi.
  rewrite inject_Z_plus in Hhi. change (inject_Z 1) with 1%Q in Hhi.
  destruct (y - inject_Z (Qfloor y) ?= 1 # 2)%Q eqn:Hcmp.
  - apply Qeq_alt in Hcmp.
    destruct (Z.even (Qfloor y)); rewrite ?inject_Z_plus; change (inject_Z 1) with 1%Q;
      generalize dependent (inject_Z (Qfloor y)); intros; lra.
  - apply Qlt_alt in Hcmp.
    generalize dependent (inject_Z (Qfloor y)); intros; lra.
  - apply Qgt_alt in Hcmp. rewrite inject_Z_plus. change (inject_Z 1) with 1%Q.
    generalize dependent (inject_Z (Qfloor y)); intros; lra.
Qed.

Lemma binary64_pos_near (x : Q) :
  (0 < x)%Q ->
  (x * (1 - unit_roundoff) <= binary64_pos x <= x * (1 + unit_roundoff))%Q.
Proof.
  intros Hx. unfold binary64_pos.
  set (e := floor_log2 x - 52).
  pose proof (floor_log2_le x Hx) as Hlog.
  replace (floor_log2 x) with (e + 52) in Hlog by (unfold e; lia).
  rewrite Qpower_plus in Hlog by discriminate.
  pose proof (Qpower2_pos e) as Hp.
  pose proof (Qpower2_cancel e) as Hinv.
  pose proof (round_half_even_near (x * 2 ^ (- e))) as [Hlo Hhi].
  generalize dependent (inject_Z (round_half_even (x * 2 ^ (- e)))).
  change (2 ^ 52)%Q with (4503599627370496 # 1)%Q in Hlog.
  generalize dependent (2 ^ (- e))%Q. generalize dependent (2 ^ e)%Q.
  intros p Hlog Hp pinv Hinv m Hlo Hhi.
  unfold unit_roundoff.
  assert (m * p - (1 # 2) * p <= x * pinv * p)%Q as H1 by nra.
  assert (x * pinv * p <= m * p + (1 # 2) * p)%Q as H2 by nra.
  assert (x * pinv * p == x)%Q as H3 by (rewrite <- Qmult_assoc, Hinv; ring).
  split; lra.
Qed.

Lemma binary64_near (x : Q) :
  (0 <= x)%Q ->
  (x * (1 - unit_roundoff) <= binary64 x <= x * (1 + unit_roundoff))%Q.
Proof.
  intros Hx. unfold binary64. destruct x as [n d].
  destruct n as [| n | n]; cbn [Qnum].
  - split; discriminate.
  - rewrite Qred_correct. by apply binary64_pos_near.
  - exfalso. by apply Hx.
Qed.

Lemma binary64_nonneg (x : Q) : (0 <= x)%Q -> (0 <= binary64 x)%Q.
Proof.
  intros Hx. destruct (binary64_near x Hx) as [Hlo _].
  unfold unit_roundoff in Hlo. 
  eapply Qle_trans; [| exact Hlo].
  apply Qmult_le_0_compat; [exact Hx | discriminate].
Qed.

Lemma round_half_even_whole (y : Q) (z : Z) : (y == inject_Z z)%Q -> round_half_even y = z.
Proof.
  intros Hy. unfold round_half_even.
  assert (Qfloor y = z) as -> by (rewrite Hy; apply Qfloor_Z).
  assert ((y - inject_Z z ?= 1 # 2)%Q = Lt) as ->; [| reflexivity].
  apply (proj1 (Qlt_alt _ _)).
  assert (y - inject_Z z == 0)%Q as -> by (rewrite Hy; ring). reflexivity.
Qed.

Lemma binary64_whole (k : Z) : 0 <= k < 2 ^ 53 -> (binary64 (inject_Z k) == inject_Z k)%Q.
Proof.
  intros [Hk0 Hk]. destruct k as [| p | p]; [reflexivity | | lia].
  change (inject_Z (Zpos p)) with (Zpos p # 1). unfold binary64. cbn [Qnum].
  rewrite Qred_correct. unfold binary64_pos.
  assert (floor_log2 (Zpos p # 1) = Z.log2 (Zpos p)) as ->.
  { unfold floor_log2. cbn [Qnum Qden]. change (Z.log2 1) with 0. rewrite Z.sub_0_r.
    replace (Qle_bool (2 ^ Z.log2 (Zpos p)) (Zpos p # 1)) with true; [reflexivity |].
    symmetry. apply Qle_bool_iff. rewrite Qpower2_inject by apply Z.log2_nonneg.
    change (Zpos p # 1) with (inject_Z (Zpos p)). rewrite <- Zle_Qle.
    apply Z.log2_spec. lia. }
  set (a := Z.log2 (Zpos p)).
  assert (0 <= a < 53) as Ha.
  { split; [apply Z.log2_nonneg |]. apply Z.log2_lt_pow2; lia. }
  rewrite (round_half_even_whole _ (Zpos p * 2 ^ (- (a - 52)))).
  - rewrite inject_Z_mult, <- Qpower2_inject by lia.
    rewrite <- Qmult_assoc, Qpower2_cancel. apply Qmult_1_r.
  - rewrite inject_Z_mult, <- Qpower2_inject by lia. reflexivity.
Qed.

Lemma floor_log2_lt (x : Q) : (0 < x)%Q -> (x < 2 ^ (floor_log2 x + 1))%Q.
Proof.
  intros Hx. unfold floor_log2.
  set (a := Z.log2 (Qnum x)). set (b := Z.log2 (Zpos (Qden x))).
  destruct (Qle_bool (2 ^ (a - b)) x) eqn:Hle.
  2: { replace (a - b - 1 + 1) with (a - b) by lia.
       apply Qnot_le_lt. intros H. apply Qle_bool_iff in H. congruence. }
  assert (0 < Qnum x) as Hn.
  { destruct x as [n d]. unfold Qlt in Hx. cbn in *. lia. }
  pose proof (Z.log2_spec (Qnum x) Hn) as [_ Ha]. fold a in Ha.
  pose proof (Z.log2_spec (Zpos (Qden x)) (Pos2Z.is_pos _)) as [Hb _]. fold b in Hb.
  pose proof (Z.log2_nonneg (Qnum x)) as Ha0. fold a in Ha0.
  pose proof (Z.log2_nonneg (Zpos (Qden x))) as Hb0. fold b in Hb0.
  replace (a - b + 1) with (a + 1 + - b) by lia.
  rewrite Qpower_plus by discriminate. rewrite Qpower_opp.
  rewrite (Qpower2_inject (a + 1)), (Qpower2_inject b) by lia.
  replace (Z.succ a) with (a + 1) in Ha by lia.
  assert (0 < 2 ^ b) as Hpb by (apply Z.pow_pos_nonneg; lia).
  assert (x == inject_Z (Qnum x) / inject_Z (QDen x))%Q as ->.
  { rewrite <- Qmake_Qdiv. by destruct x. }
  rewrite Zlt_Qlt in Ha. rewrite Zle_Qle in Hb.
  assert (0 < inject_Z (2 ^ b))%Q as Hqb.
  { change 0%Q with (inject_Z 0). by rewrite <- Zlt_Qlt. }
  assert (0 < inject_Z (Qnum x))%Q as Hqn.
  { change 0%Q with (inject_Z 0). by rewrite <- Zlt_Qlt. }
  generalize dependent (inject_Z (2 ^ (a + 1))).
  generalize dependent (inject_Z (2 ^ b)).
  generalize dependent (inject_Z (Qnum x)).
  generalize dependent (inject_Z (QDen x)).
  intros qd qn Hqn qb Hbd Hqb qa Hna.
  apply Qlt_shift_div_r; [lra |].
  assert (qa * / qb * qb == qa)%Q as Heq by (field; lra).
  assert (0 <= qa * / qb)%Q as Hpos.
  { apply Qmult_le_0_compat; [lra |]. apply Qlt_le_weak, Qinv_lt_0_compat. lra. }
  assert (qa * / qb * qb <= qa * / qb * qd)%Q as Hmono.
  { rewrite !(Qmult_comm (qa * / qb)). by apply Qmult_le_compat_r. }
  lra.
Qed.

Lemma floor_log2_unique (x : Q) (e : Z) :
  (2 ^ e <= x)%Q -> (x < 2 ^ (e + 1))%Q -> floor_log2 x = e.
Proof.
  intros Hlo Hhi.
  assert (0 < x)%Q as Hx by (eapply Qlt_le_trans; [apply Qpower2_pos | exact Hlo]).
  pose proof (floor_log2_le x Hx) as Hlo'. pose proof (floor_log2_lt x Hx) as Hhi'.
  assert (floor_log2 x < e + 1).
  { apply (Qpower_lt_compat_l_inv 2); [| reflexivity].
    eapply Qle_lt_trans; [exact Hlo' | exact Hhi]. }
  assert (e < floor_log2 x + 1).
  { apply (Qpower_lt_compat_l_inv 2); [| reflexivity].
    eapply Qle_lt_trans; [exact Hlo | exact Hhi']. }
  lia.
Qed.

Lemma floor_log2_comp (x y : Q) : (0 < x)%Q -> (x == y)%Q -> floor_log2 x = floor_log2 y.
Proof.
  intros Hx Hxy. symmetry. apply floor_log2_unique; rewrite <- Hxy.
  - by apply floor_log2_le.
  - by apply floor_log2_lt.
Qed.

Lemma round_half_even_comp (x y : Q) : (x == y)%Q -> round_half_even x = round_half_even y.
Proof.
  intros Hxy. unfold round_half_even. rewrite (Qfloor_comp x y Hxy).
  assert ((x - inject_Z (Qfloor y) ?= 1 # 2)%Q = (y - inject_Z (Qfloor y) ?= 1 # 2)%Q) as ->;
    [| reflexivity].
  apply Qcompare_comp; [| reflexivity]. by rewrite Hxy.
Qed.

Lemma binary64_pos_comp (x y : Q) :
  (0 < x)%Q -> (x == y)%Q -> (binary64_pos x == binary64_pos y)%Q.
Proof.
  intros Hx Hxy. unfold binary64_pos.
  rewrite (floor_log2_comp x y Hx Hxy).
  rewrite (round_half_even_comp (x * 2 ^ (- (floor_log2 y - 52))) (y * 2 ^ (- (floor_log2 y - 52))));
    [reflexivity |].
  by rewrite Hxy.
Qed.

(** [binary64] does not depend on the fraction that stands for a number. *)
Lemma binary64_comp (x y : Q) : (x == y)%Q -> (binary64 x == binary64 y)%Q.
Proof.
  intros Hxy. unfold binary64.
  destruct x as [[| n | n] d], y as [[| n' | n'] d']; cbn [Qnum];
    try reflexivity; try (exfalso; unfold Qeq in Hxy; cbn in Hxy; lia).
  - rewrite !Qred_correct. by apply binary64_pos_comp.
  - rewrite !Qred_correct. apply Qopp_comp. apply binary64_pos_comp; [reflexivity |].
    by rewrite Hxy.
Qed.

(** A whole number below [2 ^ 53] is a float: nothing is rounded. *)
Lemma binary64_whole_eq (x : Q) (k : Z) :
  0 <= k < 2 ^ 53 -> (x == inject_Z k)%Q -> (binary64 x == x)%Q.
Proof.
  intros Hk Hx. rewrite (binary64_comp x (inject_Z k) Hx), Hx. by apply binary64_whole.
Qed.

(** ** Segments *)

Lemma py_getitem_nonneg {A} (l : list A) (i : Z) :
  0 <= i -> py_getitem l i = l !! Z.to_nat i.
Proof.
  intros Hi. unfold py_getitem.
  destruct (Z.leb_spec 0 i) as [_ | Hneg]; [reflexivity | lia].
Qed.

Lemma segment_at_inner (steps : list Q) (video_duration : Q) (i : Z) (a b : Q) :
  0 <= i ->
  steps !! Z.to_nat i = Some a ->
  steps !! S (Z.to_nat i) = Some b ->
  segment_at steps video_duration i = inr (mkSegment a b).
Proof.
  intros Hi Ha Hb. unfold segment_at.
  rewrite py_getitem_nonneg, Ha by lia.
  pose proof (lookup_lt_Some _ _ _ Hb) as Hlen.
  destruct (Z.ltb_spec (i + 1) (Z.of_nat (length steps))) as [_ | Hge]; [| lia].
  rewrite py_getitem_nonneg by lia.
  replace (Z.to_nat (i + 1)) with (S (Z.to_nat i)) by lia.
  rewrite Hb. reflexivity.
Qed.

Lemma segment_at_last (steps : list Q) (video_duration : Q) (i : Z) (a : Q) :
  0 <= i ->
  steps !! Z.to_nat i = Some a ->
  Z.of_nat (length steps) <= i + 1 ->
  segment_at steps video_duration i = inr (mkSegment a (inject_Z (py_int video_duration))).
Proof.
  intros Hi Ha Hlast. unfold segment_at.
  rewrite py_getitem_nonneg, Ha by lia.
  destruct (Z.ltb_spec (i + 1) (Z.of_nat (length steps))) as [Hlt | _]; [lia | reflexivity].
Qed.

(** C2, as stated, fails: the timestamps [12, 5] of a video of 20 seconds
    give at index 0 the segment from 12 to 5, whose end is not after its
    start. *)
Lemma segment_end_not_after_start :
  exists seg : segment,
    segment_at [12; 5]%Q 20%Q 0 = inr seg /\ ~ (clip_start seg < clip_end seg)%Q.
Proof.
  exists (mkSegment 12 5). split; [reflexivity |].
  cbn. intros H. apply Qlt_not_le in H. apply H. discriminate.
Qed.

(** C2, amended: the segment of every valid index ends after it starts
    exactly when the step list is strictly increasing and its last timestamp
    is smaller than [int(video.duration)]. *)
Theorem segment_end_after_start (steps : list Q) (video_duration : Q) :
  (strictly_increasing steps /\
   (forall x : Q, last steps = Some x -> (x < inject_Z (py_int video_duration))%Q))
  <->
  (forall i : Z, 0 <= i < Z.of_nat (length steps) ->
     exists seg : segment,
       segment_at steps video_duration i = inr seg /\ (clip_start seg < clip_end seg)%Q).
Proof.
  split.
  - intros [Hinc Hlast] i [Hi0 Hilen].
    destruct (steps !! Z.to_nat i) as [a |] eqn:Ha;
      [| apply lookup_ge_None in Ha; lia].
    destruct (steps !! S (Z.to_nat i)) as [b |] eqn:Hb.
    + exists (mkSegment a b). split.
      * by apply segment_at_inner.
      * cbn. by eapply Hinc.
    + apply lookup_ge_None in Hb.
      exists (mkSegment a (inject_Z (py_int video_duration))). split.
      * apply segment_at_last; [done | done | lia].
      * cbn. apply Hlast. rewrite last_lookup, <- Ha. f_equal. lia.
  - intros Hseg. split.
    + intros i a b Ha Hb.
      destruct (Hseg (Z.of_nat i)) as (seg & Hat & Hlt).
      { apply lookup_lt_Some in Ha. lia. }
      rewrite (segment_at_inner steps video_duration (Z.of_nat i) a b) in Hat;
        [| lia | by rewrite Nat2Z.id | by rewrite Nat2Z.id].
      injection Hat as <-. exact Hlt.
    + intros x Hx. rewrite last_lookup in Hx.
      pose proof (lookup_lt_Some _ _ _ Hx) as Hlen.
      destruct (Hseg (Z.of_nat (pred (length steps)))) as (seg & Hat & Hlt); [lia |].
      rewrite (segment_at_last steps video_duration _ x) in Hat;
        [| lia | by rewrite Nat2Z.id | lia].
      injection Hat as <-. exact Hlt.
Qed.

Lemma segment_end_after_start_witness :
  exists seg : segment,
    segment_at [5; 12]%Q 20%Q 1 = inr seg /\ (clip_start seg < clip_end seg)%Q.
Proof.
  apply (proj1 (segment_end_after_start [5; 12]%Q 20%Q)).
  - split.
    + intros [| [| i]] a b Ha Hb; try discriminate.
      injection Ha as <-. injection Hb as <-. reflexivity.
    + intros x [= <-]. reflexivity.
  - cbn. lia.
Defined.

(** ** Reasoning about runs *)

Lemma ends_in_bind {A B} (m : M A) (k : A -> M B) (P Q : state -> Prop) (s : state) :
  ends_in (m s) P ->
  (forall a s1, m s = Ok a s1 -> P s1 -> ends_in (k a s1) Q) ->
  (forall s1, P s1 -> Q s1) ->
  ends_in (bind m k s) Q.
Proof.
  unfold bind, ends_in. intros Hm Hk He.
  destruct (m s) as [a s1 | e s1 | s1]; cbn in *; eauto.
Qed.

Lemma ends_in_weaken {A} (r : result A) (P Q : state -> Prop) :
  ends_in r P -> (forall s, P s -> Q s) -> ends_in r Q.
Proof. unfold ends_in. auto. Qed.

Section Keeps.

Variable R : state -> state -> Prop.
Hypothesis R_refl : forall s, R s s.
Hypothesis R_trans : forall s1 s2 s3, R s1 s2 -> R s2 s3 -> R s1 s3.

Lemma keeps_ret {A} (a : A) : keeps R (ret a).
Proof. intros s. cbn. apply R_refl. Qed.

Lemma keeps_raise {A} (e : exn) : keeps R (@raise A e).
Proof. intros s. cbn. apply R_refl. Qed.

Lemma keeps_out_of_fuel {A} : keeps R (@out_of_fuel A).
Proof. intros s. cbn. apply R_refl. Qed.

Lemma keeps_bind {A B} (m : M A) (k : A -> M B) :
  keeps R m -> (forall a, keeps R (k a)) -> keeps R (bind m k).
Proof.
  intros Hm Hk s. apply ends_in_bind with (P := R s).
  - apply Hm.
  - intros a s1 _ H1. eapply ends_in_weaken; [apply Hk |]. cbn. eauto.
  - intros s1 H1. eapply R_trans; [exact H1 | apply R_refl].
Qed.

Lemma keeps_when (b : bool) (m : M unit) : keeps R m -> keeps R (when b m).
Proof. destruct b; cbn; [auto | intros _; apply keeps_ret]. Qed.

Lemma keeps_read {A} (v : pyvar A) : keeps R (read v).
Proof. destruct v; [apply keeps_raise | apply keeps_ret]. Qed.

Lemma keeps_lift {A} (r : exn + A) : keeps R (lift r).
Proof. destruct r; [apply keeps_raise | apply keeps_ret]. Qed.

Lemma keeps_for_each {A B} (body : A -> B -> M A) (xs : list B) :
  (forall acc x, keeps R (body acc x)) -> forall acc, keeps R (for_each body xs acc).
Proof.
  intros Hbody. induction xs as [| x xs IH]; intros acc; cbn.
  - apply keeps_ret.
  - apply keeps_bind; auto.
Qed.

Section Loops.

Variable tick_at : nat -> Z.
Variable event_func : clip -> nat -> bool -> M controls.

Hypothesis keeps_tick : keeps R (clock_tick tick_at).
Hypothesis keeps_handler : forall c i paused, keeps R (event_func c i paused).

Lemma keeps_wait_loop fuel m d : keeps R (wait_loop tick_at fuel m d).
Proof.
  revert d. induction fuel as [| fuel IH]; intros d; cbn;
    destruct (Qltb d (-1 * m)); try apply keeps_ret.
  - apply keeps_out_of_fuel.
  - apply keeps_bind; auto.
Qed.

Lemma keeps_paused_loop fuel c i r : keeps R (paused_loop tick_at event_func fuel c i r).
Proof.
  revert r. induction fuel as [| fuel IH]; intros r; cbn;
    destruct (ctl_paused r && ctl_running r); try apply keeps_ret.
  - apply keeps_out_of_fuel.
  - apply keeps_bind; [auto |]. intros r'. apply keeps_bind; auto.
Qed.

Hypothesis keeps_pause : keeps R (emit MusicPause).
Hypothesis keeps_unpause : keeps R (emit MusicUnpause).

Lemma keeps_poll_input fuel c m i d : keeps R (poll_input tick_at event_func fuel c m i d).
Proof.
  unfold poll_input.
  apply keeps_bind; [auto |]. intros r.
  apply keeps_bind; [by apply keeps_when |]. intros _.
  apply keeps_bind; [apply keeps_paused_loop |]. intros r'.
  apply keeps_bind; [by apply keeps_when |]. intros _.
  destruct (negb (ctl_running r') || bool_decide (ctl_delta r' <> None)).
  - apply keeps_ret.
  - apply keeps_bind; [auto |]. intros t. apply keeps_ret.
Qed.

Hypothesis keeps_render : forall i, keeps R (emit (Render i)).

Lemma keeps_show_frame fuel c m i d : keeps R (show_frame tick_at event_func fuel c m i d).
Proof.
  unfold show_frame. apply keeps_bind; [auto |]. intros _. apply keeps_poll_input.
Qed.

Lemma keeps_frame_body fuel c m i L : keeps R (frame_body tick_at event_func fuel c m i L).
Proof.
  unfold frame_body. destruct (Qltb m (current_video_delay_ms L)).
  - apply keeps_ret.
  - apply keeps_bind; [apply keeps_wait_loop |]. intros d. apply keeps_show_frame.
Qed.

Lemma keeps_frame_loop fuel c m frames L :
  keeps R (frame_loop tick_at event_func fuel c m frames L).
Proof.
  revert L. induction frames as [| i frames IH]; intros L; cbn.
  - apply keeps_ret.
  - apply keeps_bind; [apply keeps_frame_body |]. intros [[] L']; [apply IH | apply keeps_ret].
Qed.

Hypothesis keeps_fill : keeps R (emit ScreenFill).
Hypothesis keeps_play : keeps R (emit MusicPlay).

Lemma keeps_one_pass fuel c m L : keeps R (one_pass tick_at event_func fuel c m L).
Proof.
  unfold one_pass.
  apply keeps_bind; [auto |]. intros _.
  apply keeps_bind; [destruct (Nat.eqb (nframes c) 0); [apply keeps_raise | apply keeps_ret] |].
  intros _. apply keeps_bind; [auto |]. intros _. apply keeps_frame_loop.
Qed.

Lemma keeps_stop_looping repeat L : keeps R (stop_looping repeat L).
Proof.
  unfold stop_looping. destruct (negb repeat); [apply keeps_ret |].
  destruct (negb (running L)); [apply keeps_ret |].
  apply keeps_bind; [apply keeps_read |]. intros d. apply keeps_ret.
Qed.

Lemma keeps_pass_loop fuel c m repeat L :
  keeps R (pass_loop tick_at event_func fuel c m repeat L).
Proof.
  revert L. induction fuel as [| fuel IH]; intros L; cbn.
  - apply keeps_out_of_fuel.
  - apply keeps_bind; [apply keeps_one_pass |]. intros L'.
    apply keeps_bind; [apply keeps_stop_looping |]. intros [].
    + apply keeps_bind; [apply keeps_read |]. intros d. apply keeps_ret.
    + apply IH.
Qed.

Hypothesis keeps_write : keeps R (emit AudioWrite).
Hypothesis keeps_load : keeps R (emit MusicLoad).

Lemma keeps_play_clip fuel c repeat : keeps R (play_clip tick_at event_func fuel c repeat).
Proof.
  unfold play_clip.
  apply keeps_bind; [auto |]. intros _.
  apply keeps_bind; [auto |]. intros _.
  destruct (Qeq_bool (fps c) 0); [apply keeps_raise | apply keeps_pass_loop].
Qed.

End Loops.

End Keeps.

(** ** The order in which frames are shown *)

Lemma rendered_app (l1 l2 : list effect) : rendered (l1 ++ l2) = rendered l1 ++ rendered l2.
Proof.
  induction l1 as [| e l1 IH]; [reflexivity |].
  destruct e; cbn; rewrite IH; reflexivity.
Qed.

Lemma shown_emit (e : effect) (s : state) :
  shown (final_state (emit e s)) = shown s ++ rendered [e].
Proof. unfold shown, trace. cbn. apply rendered_app. Qed.

Lemma sublist_StronglySorted {A} (R : A -> A -> Prop) (l1 l2 : list A) :
  sublist l1 l2 -> StronglySorted R l2 -> StronglySorted R l1.
Proof.
  induction 1 as [| x l1 l2 Hsub IH | x l1 l2 Hsub IH]; intros Hsorted.
  - constructor.
  - apply StronglySorted_cons in Hsorted as [Hall Hsorted].
    apply StronglySorted_cons. split; [| auto].
    apply Forall_forall. intros y Hy. rewrite Forall_forall in Hall.
    apply Hall. by eapply sublist_subseteq.
  - apply StronglySorted_cons in Hsorted as [_ Hsorted]. auto.
Qed.

Lemma StronglySorted_seq (start len : nat) : StronglySorted lt (seq start len).
Proof.
  revert start. induction len as [| len IH]; intros start; cbn.
  - constructor.
  - apply StronglySorted_cons. split; [| apply IH].
    apply Forall_forall. intros y Hy. apply elem_of_seq in Hy. lia.
Qed.

Lemma same_frames_refl (s : state) : same_frames s s.
Proof. reflexivity. Qed.

Lemma same_frames_trans (s1 s2 s3 : state) :
  same_frames s1 s2 -> same_frames s2 s3 -> same_frames s1 s3.
Proof. unfold same_frames. congruence. Qed.

Lemma same_frames_emit (e : effect) :
  rendered [e] = [] -> keeps same_frames (emit e).
Proof.
  intros He s. unfold ends_in, same_frames.
  rewrite shown_emit, He. apply app_nil_r.
Qed.

Lemma same_frames_tick (tick_at : nat -> Z) : keeps same_frames (clock_tick tick_at).
Proof. intros s. reflexivity. Qed.

Lemma same_frames_silent (event_func : clip -> nat -> bool -> M controls) :
  silent event_func -> forall c i paused, keeps same_frames (event_func c i paused).
Proof.
  intros Hsilent c i paused s. specialize (Hsilent c i paused s).
  unfold ends_in, same_frames, shown, trace in *. by rewrite Hsilent.
Qed.

Lemma more_frames_same (frames : list nat) (s s' : state) :
  same_frames s s' -> more_frames frames s s'.
Proof.
  intros Hsame. exists []. split; [by rewrite app_nil_r | apply sublist_nil_l].
Qed.

Section Order.

Variable tick_at : nat -> Z.
Variable event_func : clip -> nat -> bool -> M controls.
Hypothesis handler_silent : silent event_func.

Lemma show_frame_shows fuel c m i d s :
  ends_in (show_frame tick_at event_func fuel c m i d s) (fun s' => shown s' = shown s ++ [i]).
Proof.
  unfold show_frame.
  apply ends_in_bind with (P := fun s1 => shown s1 = shown s ++ [i]).
  - unfold ends_in. apply shown_emit.
  - intros _ s1 _ H1.
    eapply ends_in_weaken.
    + apply (keeps_poll_input same_frames same_frames_refl same_frames_trans
               tick_at event_func);
        auto using same_frames_tick, same_frames_silent, same_frames_emit.
    + cbn. unfold same_frames. congruence.
  - auto.
Qed.

Lemma frame_body_shows fuel c m i L s :
  ends_in (frame_body tick_at event_func fuel c m i L s) (more_frames [i] s).
Proof.
  unfold frame_body. destruct (Qltb m (current_video_delay_ms L)).
  - apply more_frames_same. reflexivity.
  - apply ends_in_bind with (P := same_frames s).
    + apply (keeps_wait_loop same_frames same_frames_refl same_frames_trans);
        auto using same_frames_tick.
    + intros d s1 _ H1. eapply ends_in_weaken; [apply show_frame_shows |].
      cbn. intros s2 H2. exists [i]. split; [| done].
      unfold same_frames in H1. congruence.
    + apply more_frames_same.
Qed.

Lemma frame_loop_shows fuel c m frames L s :
  ends_in (frame_loop tick_at event_func fuel c m frames L s) (more_frames frames s).
Proof.
  revert L s. induction frames as [| i frames IH]; intros L s; cbn.
  - apply more_frames_same. reflexivity.
  - apply ends_in_bind with (P := more_frames [i] s).
    + apply frame_body_shows.
    + intros [fl L'] s1 _ (new1 & Hnew1 & Hsub1).
      assert (forall s2, more_frames frames s1 s2 -> more_frames (i :: frames) s s2) as Hjoin.
      { intros s2 (new2 & Hnew2 & Hsub2). exists (new1 ++ new2). split.
        - rewrite Hnew2, Hnew1. symmetry. apply app_assoc.
        - change (i :: frames) with ([i] ++ frames). by apply sublist_app. }
      destruct fl.
      * eapply ends_in_weaken; [apply IH | exact Hjoin].
      * apply Hjoin, more_frames_same. reflexivity.
    + intros s1 (new1 & Hnew1 & Hsub1). exists new1. split; [done |].
      change (i :: frames) with ([i] ++ frames). by apply sublist_inserts_r.
Qed.

Lemma one_pass_shows fuel c m L s :
  ends_in (one_pass tick_at event_func fuel c m L s) (more_frames (seq 0 (nframes c)) s).
Proof.
  unfold one_pass.
  apply ends_in_bind with (P := same_frames s);
    [by apply same_frames_emit | | apply more_frames_same].
  intros _ s1 _ H1.
  apply ends_in_bind with (P := same_frames s);
    [destruct (Nat.eqb (nframes c) 0); exact H1 | | apply more_frames_same].
  intros _ s2 _ H2.
  apply ends_in_bind with (P := same_frames s);
    [unfold ends_in; eapply same_frames_trans;
       [exact H2 | by apply same_frames_emit] | | apply more_frames_same].
  intros _ s3 _ H3.
  eapply ends_in_weaken; [apply frame_loop_shows |].
  cbn. intros s4 (new & Hnew & Hsub). exists new. split; [| done].
  unfold same_frames in H3. congruence.
Qed.

End Order.

(** C9: in one pass the frames are shown in strictly increasing index
    order, whichever way the pass ends (it returns, raises, or is still
    running when the fuel is spent); so no frame is shown twice or out of
    order, and a frame that is dropped leaves the state as it was. *)
Theorem rendered_frames_strictly_increase
    (tick_at : nat -> Z) (event_func : clip -> nat -> bool -> M controls)
    (fuel : nat) (c : clip) (ms_per_frame : Q) (L : locals) (s : state) :
  silent event_func ->
  (exists new : list nat,
     shown (final_state (one_pass tick_at event_func fuel c ms_per_frame L s)) = shown s ++ new /\
     StronglySorted lt new /\ sublist new (seq 0 (nframes c))) /\
  (forall i : nat,
     Qltb ms_per_frame (current_video_delay_ms L) = true ->
     final_state (frame_body tick_at event_func fuel c ms_per_frame i L s) = s).
Proof.
  intros Hsilent. split.
  - destruct (one_pass_shows tick_at event_func Hsilent fuel c ms_per_frame L s)
      as (new & Hnew & Hsub).
    exists new. split; [exact Hnew |]. split; [| exact Hsub].
    eapply sublist_StronglySorted; [exact Hsub | apply StronglySorted_seq].
  - intros i Hdrop. unfold frame_body. rewrite Hdrop. reflexivity.
Qed.

(** ** The two handlers *)

Lemma play_event_func_silent (events_at : nat -> list event) :
  silent (play_event_func events_at).
Proof. intros c i paused s. reflexivity. Qed.

Lemma record_event_func_silent (events_at : nat -> list event) :
  silent (record_event_func events_at).
Proof.
  intros c i paused.
  apply (keeps_bind (fun s s' => effects s' = effects s)); try congruence.
  - intros s. reflexivity.
  - intros evs. apply keeps_bind; try congruence.
    + apply keeps_for_each; try congruence.
      intros [running paused'] e s.
      destruct e as [| [] [] |]; try reflexivity;
        unfold ends_in; cbn; unfold bind;
        by destruct (py_div (inject_Z (Z.of_nat i)) (fps c)).
    + intros [running paused'] s. reflexivity.
Qed.

(** The playback handler never touches the step list. *)
Lemma play_event_func_same_steps (events_at : nat -> list event) (c : clip) (i : nat)
    (paused : bool) :
  keeps same_steps (play_event_func events_at c i paused).
Proof. intros s. reflexivity. Qed.

Lemma rendered_frames_strictly_increase_witness :
  (exists new : list nat,
     shown (final_state (one_pass late_first_frame (play_event_func no_events) 0
                           (clip_25fps 4) 40 (mkLocals 80 true (Bound None)) start))
       = shown start ++ new /\
     StronglySorted lt new /\ sublist new (seq 0 (nframes (clip_25fps 4)))) /\
  (forall i : nat,
     Qltb 40 (current_video_delay_ms (mkLocals 80 true (Bound None))) = true ->
     final_state (frame_body late_first_frame (play_event_func no_events) 0 (clip_25fps 4)
                    40 i (mkLocals 80 true (Bound None)) start) = start).
Proof.
  apply (rendered_frames_strictly_increase late_first_frame (play_event_func no_events) 0
           (clip_25fps 4) 40 (mkLocals 80 true (Bound None)) start).
  apply play_event_func_silent.
Defined.

(** ** Drift correction *)

Lemma wait_loop_done (tick_at : nat -> Z) (fuel : nat) (m d : Q) (s : state) :
  Qltb d (-1 * m) = false -> wait_loop tick_at fuel m d s = Ok d s.
Proof. intros Hd. destruct fuel; cbn; rewrite Hd; reflexivity. Qed.

Lemma paused_loop_done (tick_at : nat -> Z) (event_func : clip -> nat -> bool -> M controls)
    (fuel : nat) (c : clip) (i : nat) (r : controls) (s : state) :
  ctl_paused r && ctl_running r = false ->
  paused_loop tick_at event_func fuel c i r s = Ok r s.
Proof. intros Hr. destruct fuel; cbn; rewrite Hr; reflexivity. Qed.

(** A frame that is due, neither late by more than a frame interval nor
    early by more than one, is shown at once. *)
Lemma frame_body_due (tick_at : nat -> Z) (event_func : clip -> nat -> bool -> M controls)
    (fuel : nat) (c : clip) (m : Q) (i : nat) (L : locals) (s : state) :
  (- m <= current_video_delay_ms L <= m)%Q ->
  frame_body tick_at event_func fuel c m i L s =
  show_frame tick_at event_func fuel c m i (current_video_delay_ms L) s.
Proof.
  intros [Hlo Hhi]. unfold frame_body.
  replace (Qltb m (current_video_delay_ms L)) with false
    by (symmetry; by apply Qltb_ge).
  unfold bind at 1. rewrite wait_loop_done; [reflexivity |].
  apply Qltb_ge. lra.
Qed.

(** What [show_frame] does when the handler reports neither a pause nor a
    request: the frame is shown and the time it took is accounted for. *)
Lemma show_frame_plain (tick_at : nat -> Z) (event_func : clip -> nat -> bool -> M controls)
    (fuel : nat) (c : clip) (m : Q) (i : nat) (d : Q) (s s1 : state) :
  event_func c i false (final_state (emit (Render i) s)) = Ok (true, false, None) s1 ->
  show_frame tick_at event_func fuel c m i d s =
  Ok (Continue, mkLocals (d + (inject_Z (tick_at (ticks_taken s1)) - m))%Q true (Bound None))
     (final_state (clock_tick tick_at s1)).
Proof.
  intros Hpoll. unfold show_frame, poll_input, bind. cbn in *. rewrite Hpoll. cbn.
  rewrite paused_loop_done by reflexivity. reflexivity.
Qed.

(** C1, as stated, fails: at 25 frames per second (40 ms per frame), with a
    drift of 0 and a first frame that takes 120 ms, frame 1 is dropped but
    frame 2 is shown; the frames shown are 0, 2 and 3. *)
Lemma late_frame_drops_one_frame_only :
  exists s' : state,
    play_clip late_first_frame (play_event_func no_events) 5 (clip_25fps 4) false start
      = Ok (true, None) s' /\
    shown s' = [0; 2; 3]%nat /\
    ~ drops_two_then_renders (shown s') 0.
Proof.
  eexists. split; [vm_compute; reflexivity |].
  split; [vm_compute; reflexivity |].
  intros (_ & Hnot2 & _). apply Hnot2. vm_compute. auto.
Qed.

(** C1, amended: let the frame interval be a whole number [k] of
    milliseconds, as it is at 25 frames per second, with [3 * k] below
    [2 ^ 53].  With a drift of 0, a frame [i0] that takes three frame
    intervals leaves a drift of two intervals; the next frame [i1] is
    dropped, nothing else happening, which leaves a drift of one interval,
    inside [[-ms_per_frame, ms_per_frame]]; and the frame after it, [i2],
    is shown at once, neither dropped nor waited for.  On these values
    binary64 rounds nothing: the two drifts are the floats that lines 148
    and 124 compute. *)
Theorem late_frame_drops_one
    (tick_at : nat -> Z) (event_func : clip -> nat -> bool -> M controls)
    (fuel : nat) (c : clip) (ms_per_frame : Q) (k : Z) (i0 i1 i2 : nat)
    (L : locals) (s s1 : state) :
  0 < k -> 3 * k < 2 ^ 53 ->
  (ms_per_frame == inject_Z k)%Q ->
  (current_video_delay_ms L == 0)%Q ->
  event_func c i0 false (final_state (emit (Render i0) s)) = Ok (true, false, None) s1 ->
  (inject_Z (tick_at (ticks_taken s1)) == 3 * ms_per_frame)%Q ->
  exists (L1 L2 : locals) (s2 : state),
    frame_body tick_at event_func fuel c ms_per_frame i0 L s = Ok (Continue, L1) s2 /\
    (current_video_delay_ms L1 == 2 * ms_per_frame)%Q /\
    frame_body tick_at event_func fuel c ms_per_frame i1 L1 s2 = Ok (Continue, L2) s2 /\
    (current_video_delay_ms L2 == ms_per_frame)%Q /\
    (- ms_per_frame <= current_video_delay_ms L2 <= ms_per_frame)%Q /\
    frame_body tick_at event_func fuel c ms_per_frame i2 L2 s2 =
      show_frame tick_at event_func fuel c ms_per_frame i2 (current_video_delay_ms L2) s2 /\
    (binary64 (current_video_delay_ms L
               + binary64 (inject_Z (tick_at (ticks_taken s1)) - ms_per_frame))
       == current_video_delay_ms L1)%Q /\
    (binary64 (current_video_delay_ms L1 - ms_per_frame) == current_video_delay_ms L2)%Q.
Proof.
  intros Hk Hk53 Hwhole Hdrift Hpoll Htick.
  assert (0 < ms_per_frame)%Q as Hm.
  { rewrite Hwhole. change 0%Q with (inject_Z 0). by rewrite <- Zlt_Qlt. }
  set (t := inject_Z (tick_at (ticks_taken s1))) in *.
  set (d1 := (current_video_delay_ms L + (t - ms_per_frame))%Q).
  exists (mkLocals d1 true (Bound None)),
         (mkLocals (d1 - ms_per_frame)%Q true (Bound None)),
         (final_state (clock_tick tick_at s1)).
  assert (d1 == 2 * ms_per_frame)%Q as Hd1 by (unfold d1; lra).
  split; [| split; [exact Hd1 |]].
  - rewrite frame_body_due by lra. by apply show_frame_plain.
  - split; [| split; [cbn; lra | split; [cbn; lra | split; [| split]]]].
    + unfold frame_body. cbn [current_video_delay_ms running step_delta].
      replace (Qltb ms_per_frame d1) with true; [reflexivity |].
      symmetry. apply Qltb_lt. lra.
    + apply frame_body_due. cbn. lra.
    + cbn [current_video_delay_ms].
      assert (t - ms_per_frame == inject_Z (2 * k))%Q as Hstep.
      { rewrite inject_Z_mult. change (inject_Z 2) with 2%Q. lra. }
      rewrite (binary64_comp _ d1).
      * apply (binary64_whole_eq d1 (2 * k)); [lia |].
        unfold d1. rewrite Hstep, Hdrift. apply Qplus_0_l.
      * unfold d1. apply Qplus_comp; [reflexivity |].
        apply (binary64_whole_eq _ (2 * k)); [lia | exact Hstep].
    + cbn [current_video_delay_ms].
      apply (binary64_whole_eq _ k); [lia | lra].
Qed.

Lemma late_frame_drops_one_witness :
  exists (L1 L2 : locals) (s2 : state),
    frame_body late_first_frame (play_event_func no_events) 0 (clip_25fps 4) 40 0
      (mkLocals 0 true Unbound) start = Ok (Continue, L1) s2 /\
    (current_video_delay_ms L1 == 2 * 40)%Q /\
    frame_body late_first_frame (play_event_func no_events) 0 (clip_25fps 4) 40 1 L1 s2
      = Ok (Continue, L2) s2 /\
    (current_video_delay_ms L2 == 40)%Q /\
    (- (40) <= current_video_delay_ms L2 <= 40)%Q /\
    frame_body late_first_frame (play_event_func no_events) 0 (clip_25fps 4) 40 2 L2 s2 =
      show_frame late_first_frame (play_event_func no_events) 0 (clip_25fps 4) 40 2
        (current_video_delay_ms L2) s2 /\
    (binary64 (0 + binary64 (inject_Z (late_first_frame 0%nat) - 40))
       == current_video_delay_ms L1)%Q /\
    (binary64 (current_video_delay_ms L1 - 40) == current_video_delay_ms L2)%Q.
Proof.
  apply (late_frame_drops_one late_first_frame (play_event_func no_events) 0 (clip_25fps 4)
           40 40 0 1 2 (mkLocals 0 true Unbound) start
           (mkState 0 1 [] [Render 0])).
  - reflexivity.
  - reflexivity.
  - reflexivity.
  - reflexivity.
  - reflexivity.
  - reflexivity.
Defined.

(** Where the frame interval is not a whole number of milliseconds the
    floats differ from the exact values.  At 24 frames per second, after a
    frame of 125 ms, three times the interval, the drift of line 148 is
    above two intervals as line 100 rounds them: the next two frames are
    dropped there, and the third is shown. *)
Example drift_at_24_fps_is_rounded_up :
  let ms_per_frame := binary64 (1000 / 24) in
  let drift := binary64 (0 + binary64 (125 - ms_per_frame)) in
  let drift' := binary64 (drift - ms_per_frame) in
  let drift'' := binary64 (drift' - ms_per_frame) in
  Qltb ms_per_frame drift = true /\
  Qltb ms_per_frame drift' = true /\
  Qltb ms_per_frame drift'' = false /\
  Qltb drift'' (-1 * ms_per_frame) = false.
Proof. vm_compute. auto. Qed.

(** ** The paused loop *)

(** What one poll of the playback handler returns while the clip is paused. *)
Lemma play_event_func_poll (events_at : nat -> list event) (c : clip) (i : nat)
    (paused : bool) (s : state) :
  play_event_func events_at c i paused s =
  Ok (fold_left play_event (events_at (polls_taken s)) (true, paused, None))
     (mkState (ticks_taken s) (S (polls_taken s)) (step_timestamps s) (effects s)).
Proof. reflexivity. Qed.

(** C10: while the clip is paused every poll starts from [step_delta =
    None] and replaces what the poll before it returned.  If the polls
    [polls_taken s], ..., [polls_taken s + n - 1] leave the clip paused and
    running and the poll [polls_taken s + n] does not, the paused loop
    returns what that last poll alone returns: a request made in one of the
    [n] polls before it is gone. *)
Theorem paused_loop_returns_last_poll
    (tick_at : nat -> Z) (events_at : nat -> list event)
    (n fuel : nat) (c : clip) (i : nat) (r0 : controls) (s : state) :
  ctl_paused r0 && ctl_running r0 = true ->
  (forall j : nat, (j < n)%nat ->
     let r := fold_left play_event (events_at (polls_taken s + j)%nat) (true, true, None) in
     ctl_paused r && ctl_running r = true) ->
  (let r := fold_left play_event (events_at (polls_taken s + n)%nat) (true, true, None) in
   ctl_paused r && ctl_running r = false) ->
  (n < fuel)%nat ->
  paused_loop tick_at (play_event_func events_at) fuel c i r0 s =
  Ok (fold_left play_event (events_at (polls_taken s + n)%nat) (true, true, None))
     (mkState (ticks_taken s + S n) (polls_taken s + S n) (step_timestamps s) (effects s)).
Proof.
  revert fuel r0 s. induction n as [| n IH]; intros fuel r0 s Hr0 Hstay Hleave Hfuel.
  - destruct fuel as [| fuel]; [lia |].
    cbn [paused_loop]. rewrite Hr0. unfold bind.
    rewrite play_event_func_poll. cbn in Hleave |- *.
    rewrite Nat.add_0_r in Hleave |- *.
    rewrite paused_loop_done by exact Hleave.
    by rewrite !Nat.add_1_r.
  - destruct fuel as [| fuel]; [lia |].
    cbn [paused_loop]. rewrite Hr0. unfold bind.
    rewrite play_event_func_poll. cbn [clock_tick ticks_taken polls_taken step_timestamps effects].
    rewrite IH; cbn [ticks_taken polls_taken step_timestamps effects].
    + by rewrite !Nat.add_succ_comm.
    + specialize (Hstay 0%nat ltac:(lia)). cbv zeta in Hstay.
      by rewrite Nat.add_0_r in Hstay.
    + intros j Hj. specialize (Hstay (S j) ltac:(lia)). cbv zeta in Hstay |- *.
      by rewrite Nat.add_succ_comm.
    + cbv zeta in Hleave |- *. by rewrite Nat.add_succ_comm.
    + lia.
Qed.

(** The user pauses, presses the key for the next step, and resumes: the
    paused loop returns no request. *)
Lemma paused_loop_returns_last_poll_witness :
  paused_loop on_time (play_event_func advance_while_paused) 2 (clip_25fps 2) 0
    (true, true, None) (mkState 0 1 [] [MusicPause; Render 0]) =
  Ok (true, false, None) (mkState 2 3 [] [MusicPause; Render 0]).
Proof.
  apply (paused_loop_returns_last_poll on_time advance_while_paused 1 2 (clip_25fps 2) 0
           (true, true, None) (mkState 0 1 [] [MusicPause; Render 0])).
  - reflexivity.
  - intros [| j] Hj; [reflexivity | lia].
  - reflexivity.
  - lia.
Defined.

(** The whole run of that session: frame 1 is shown after the pause, the
    clip is played to its end and the request for the next step is lost. *)
Example advance_request_lost_in_pause :
  play_clip on_time (play_event_func advance_while_paused) 3 (clip_25fps 2) false start =
  Ok (true, None)
     (mkState 4 4 []
        (rev [AudioWrite; MusicLoad; ScreenFill; MusicPlay;
              Render 0; MusicPause; MusicUnpause; Render 1])).
Proof. vm_compute. reflexivity. Qed.

(** ** From one pass to the next *)

Lemma is_advance_or_rewind_spec (d : delta) :
  is_advance_or_rewind d = true <-> d = Some 1 \/ d = Some (-1).
Proof.
  destruct d as [z |]; cbn.
  - rewrite orb_true_iff, !Z.eqb_eq. split.
    + intros [-> | ->]; auto.
    + intros [[= ->] | [= ->]]; auto.
  - split; [discriminate | intros [[=] | [=]]].
Qed.

(** C4: when the frame loop of a pass has ended with [running] and
    [step_delta] as in [L'], [play_clip] returns them if [repeat] is false,
    or [running] is false, or [step_delta] is 1 or -1, and otherwise goes
    through another pass; [step_delta] is 1 or -1 exactly when
    [is_advance_or_rewind] says so. *)
Theorem pass_loop_stops_or_repeats
    (tick_at : nat -> Z) (event_func : clip -> nat -> bool -> M controls)
    (fuel : nat) (c : clip) (ms_per_frame : Q) (repeat : bool)
    (L L' : locals) (d : delta) (s s' : state) :
  one_pass tick_at event_func fuel c ms_per_frame L s = Ok L' s' ->
  step_delta L' = Bound d ->
  pass_loop tick_at event_func (S fuel) c ms_per_frame repeat L s =
    (if negb repeat || negb (running L') || is_advance_or_rewind d
     then Ok (running L', d) s'
     else pass_loop tick_at event_func fuel c ms_per_frame repeat L' s') /\
  (is_advance_or_rewind d = true <-> d = Some 1 \/ d = Some (-1)).
Proof.
  intros Hpass Hd. split; [| apply is_advance_or_rewind_spec].
  cbn [pass_loop]. unfold bind. rewrite Hpass.
  unfold stop_looping, bind. rewrite Hd.
  destruct repeat, (running L'); cbn; try reflexivity.
  destruct (is_advance_or_rewind d); reflexivity.
Qed.

Lemma pass_loop_stops_or_repeats_witness :
  pass_loop on_time (play_event_func no_events) 1 (clip_25fps 1) 40 false
    (mkLocals 0 true Unbound) start =
    Ok (true, None) (mkState 1 1 [] [Render 0; MusicPlay; ScreenFill]) /\
  (is_advance_or_rewind None = true <-> None = Some 1 \/ None = Some (-1)).
Proof.
  apply (pass_loop_stops_or_repeats on_time (play_event_func no_events) 0 (clip_25fps 1) 40
           false (mkLocals 0 true Unbound)
           (mkLocals (0 + (inject_Z 40 - 40))%Q true (Bound None)) None start
           (mkState 1 1 [] [Render 0; MusicPlay; ScreenFill])).
  - reflexivity.
  - reflexivity.
Defined.

(** *** What a pass starts from *)

Lemma appends_refl (P : effect -> Prop) (s : state) : appends P s s.
Proof. exists []. split; [reflexivity | constructor]. Qed.

Lemma appends_trans (P : effect -> Prop) (s1 s2 s3 : state) :
  appends P s1 s2 -> appends P s2 s3 -> appends P s1 s3.
Proof.
  intros (new1 & H1 & HP1) (new2 & H2 & HP2). exists (new2 ++ new1). split.
  - rewrite H2, H1. apply app_assoc.
  - apply Forall_app. by split.
Qed.

Lemma appends_emit (P : effect -> Prop) (e : effect) : P e -> keeps (appends P) (emit e).
Proof.
  intros He s. exists [e]. split; [reflexivity | by constructor].
Qed.

Lemma appends_tick (P : effect -> Prop) (tick_at : nat -> Z) :
  keeps (appends P) (clock_tick tick_at).
Proof. intros s. exists []. split; [reflexivity | constructor]. Qed.

Lemma appends_silent (P : effect -> Prop) (event_func : clip -> nat -> bool -> M controls) :
  silent event_func -> forall c i paused, keeps (appends P) (event_func c i paused).
Proof.
  intros Hsilent c i paused s. exists []. split; [apply Hsilent | constructor].
Qed.






(** ** The timestamp store *)

Lemma decode_encode_utf8 (s : string) : decode_utf8 (encode_utf8 s) = s.
Proof. apply String.string_of_list_byte_of_string. Qed.

Lemma store_after_untouched {T} (json_dumps : list T -> string)
    (writes : list (string * list T)) (video_path : string)
    (cursor : gmap string (list byte)) :
  Forall (fun w => w.1 <> video_path) writes ->
  foldl (fun cursor w => set_timestamps_for_video json_dumps cursor w.1 w.2) cursor writes
    !! video_path = cursor !! video_path.
Proof.
  intros Hother. revert cursor.
  induction Hother as [| w writes Hw _ IH]; intros cursor; cbn; [reflexivity |].
  rewrite IH. unfold set_timestamps_for_video. by rewrite lookup_insert_ne.
Qed.

(** C7: with a JSON codec that reads back what it writes, reading the
    timestamps of a video after writing them gives the list written,
    whatever the table held before, the empty list included; and reading
    those of a video that was never written to gives the empty list. *)
Theorem timestamp_store_round_trip {T : Type}
    (json_dumps : list T -> string) (json_loads : string -> option (list T)) :
  (forall l : list T, json_loads (json_dumps l) = Some l) ->
  (forall (cursor : gmap string (list byte)) (video_path : string) (timestamps : list T),
     get_timestamps_for_video json_loads
       (set_timestamps_for_video json_dumps cursor video_path timestamps) video_path
     = inr timestamps) /\
  (forall (writes : list (string * list T)) (video_path : string),
     Forall (fun w => w.1 <> video_path) writes ->
     get_timestamps_for_video json_loads (store_after json_dumps writes) video_path = inr []).
Proof.
  intros Hcodec. split.
  - intros cursor video_path timestamps.
    unfold get_timestamps_for_video, set_timestamps_for_video.
    by rewrite lookup_insert_eq, decode_encode_utf8, Hcodec.
  - intros writes video_path Hother.
    unfold get_timestamps_for_video, store_after.
    by rewrite store_after_untouched, lookup_empty.
Qed.

(** *** The codec for lists of integers reads back what it writes *)

Module IntJsonFacts.

Import Stdlib.Strings.Ascii.
Import IntJson.
Local Open Scope string_scope.

Lemma append_cons (a : ascii) (s1 s2 : string) : String a s1 ++ s2 = String a (s1 ++ s2).
Proof. reflexivity. Qed.

Lemma append_nil_l (s : string) : EmptyString ++ s = s.
Proof. reflexivity. Qed.

Lemma append_nil_r (s : string) : s ++ EmptyString = s.
Proof. induction s as [| a s IH]; [reflexivity | by rewrite append_cons, IH]. Qed.

Lemma append_assoc (s1 s2 s3 : string) : (s1 ++ s2) ++ s3 = s1 ++ (s2 ++ s3).
Proof.
  induction s1 as [| a s1 IH]; [reflexivity |]. by rewrite !append_cons, IH.
Qed.

Lemma loads_dumps_int (z : Z) : loads_int (dumps_int z) = Some z.
Proof.
  unfold loads_int, dumps_int.
  rewrite NilZero.isi.
  - cbn. f_equal. apply DecimalZ.of_to.
  - destruct z; cbn; try discriminate.
    intros [= H]. by apply (Unsigned.to_uint_nonnil p).
  - destruct z; cbn; try discriminate.
    intros [= H]. by apply (Unsigned.to_uint_nonnil p).
Qed.

Lemma item_chars_uint (d : Decimal.uint) : item_chars (NilEmpty.string_of_uint d) = true.
Proof. induction d; cbn; auto. Qed.

Lemma item_chars_dumps_int (z : Z) : item_chars (dumps_int z) = true.
Proof.
  unfold dumps_int, NilZero.string_of_int, NilZero.string_of_uint.
  destruct (Z.to_int z) as [d | d]; destruct d; cbn; auto using item_chars_uint.
Qed.

Lemma scan_item (t tok rest : string) :
  item_chars t = true -> scan tok (t ++ rest) = scan (tok ++ t) rest.
Proof.
  revert tok. induction t as [| a t IH]; intros tok Ht.
  - by rewrite append_nil_l, append_nil_r.
  - cbn [item_chars] in Ht.
    apply andb_true_iff in Ht as [Ha Ht]. unfold item_char in Ha.
    apply andb_true_iff in Ha as [Ha Hspace].
    apply andb_true_iff in Ha as [Hcomma Hbracket].
    apply negb_true_iff in Hcomma, Hbracket, Hspace.
    rewrite append_cons. cbn [scan].
    rewrite Hcomma, Hbracket, Hspace, IH by exact Ht.
    f_equal. by rewrite append_assoc, append_cons, append_nil_l.
Qed.

Lemma scan_join (x : Z) (l : list Z) :
  scan EmptyString (join (map dumps_int (x :: l)) ++ "]") = Some (x :: l).
Proof.
  revert x. induction l as [| y l IH]; intros x.
  - cbn [map join]. rewrite scan_item, append_nil_l by apply item_chars_dumps_int.
    cbn [scan]. replace (Ascii.eqb "]" ",") with false by reflexivity.
    replace (Ascii.eqb "]" "]") with true by reflexivity.
    by rewrite loads_dumps_int.
  - change (join (map dumps_int (x :: y :: l)))
      with (dumps_int x ++ ", " ++ join (map dumps_int (y :: l))).
    rewrite !append_assoc, scan_item, append_nil_l by apply item_chars_dumps_int.
    rewrite !append_cons, append_nil_l. cbn [scan].
    replace (Ascii.eqb "," ",") with true by reflexivity.
    replace (Ascii.eqb " " ",") with false by reflexivity.
    replace (Ascii.eqb " " "]") with false by reflexivity.
    replace (Ascii.eqb " " " ") with true by reflexivity.
    by rewrite loads_dumps_int, IH.
Qed.

Lemma loads_dumps (l : list Z) : loads (dumps l) = Some l.
Proof.
  destruct l as [| x l]; [reflexivity |].
  unfold dumps, loads. rewrite append_cons, append_nil_l.
  replace (Ascii.eqb "[" "[") with true by reflexivity.
  destruct (String.eqb_spec (join (map dumps_int (x :: l)) ++ "]") "]") as [Heq | _].
  - exfalso. pose proof (scan_join x l) as Hscan. rewrite Heq in Hscan. discriminate.
  - apply scan_join.
Qed.

End IntJsonFacts.

Lemma timestamp_store_round_trip_witness :
  (forall (cursor : gmap string (list byte)) (video_path : string) (timestamps : list Z),
     get_timestamps_for_video IntJson.loads
       (set_timestamps_for_video IntJson.dumps cursor video_path timestamps) video_path
     = inr timestamps) /\
  (forall (writes : list (string * list Z)) (video_path : string),
     Forall (fun w => w.1 <> video_path) writes ->
     get_timestamps_for_video IntJson.loads (store_after IntJson.dumps writes) video_path
     = inr []).
Proof.
  apply (timestamp_store_round_trip IntJson.dumps IntJson.loads).
  exact IntJsonFacts.loads_dumps.
Defined.

(** A table with the steps of one video, read for that video and for
    another. *)
Example store_read_back :
  let cursor := set_timestamps_for_video IntJson.dumps ∅ "/videos/a.mp4" [5; 12] in
  cursor !! "/videos/a.mp4"%string = Some (encode_utf8 "[5, 12]") /\
  get_timestamps_for_video IntJson.loads cursor "/videos/a.mp4" = inr [5; 12] /\
  get_timestamps_for_video IntJson.loads cursor "/videos/b.mp4" = inr [].
Proof. vm_compute. auto. Qed.

(** ** The navigator *)

Lemma next_step_idx_nonneg (step_idx : Z) (d : delta) : 0 <= next_step_idx step_idx d.
Proof. unfold next_step_idx. lia. Qed.

Lemma step_indices_nonneg (deltas : list delta) (step_idx : Z) :
  0 <= step_idx -> Forall (fun i => 0 <= i) (step_indices step_idx deltas).
Proof.
  revert step_idx. induction deltas as [| d deltas IH]; intros step_idx Hidx; cbn.
  - by constructor.
  - constructor; [done |]. apply IH, next_step_idx_nonneg.
Qed.

Lemma same_steps_refl (s : state) : same_steps s s.
Proof. reflexivity. Qed.

Lemma same_steps_trans (s1 s2 s3 : state) :
  same_steps s1 s2 -> same_steps s2 s3 -> same_steps s1 s3.
Proof. unfold same_steps. congruence. Qed.

(** Playing a clip in playback mode leaves the step list as it is. *)
Lemma play_clip_same_steps (tick_at : nat -> Z) (events_at : nat -> list event)
    (fuel : nat) (c : clip) (repeat : bool) :
  keeps same_steps (play_clip tick_at (play_event_func events_at) fuel c repeat).
Proof.
  apply keeps_play_clip;
    auto using same_steps_refl, play_event_func_same_steps;
    try (intros s; reflexivity); try (intros i s; reflexivity).
  apply same_steps_trans.
Qed.

Section PlaySteps.

Variable tick_at : nat -> Z.
Variable events_at : nat -> list event.
Variable subclip : clip -> Q -> Q -> exn + clip.

(** Entering the body of the playback loop: the segment is computed and
    the clip is asked for. *)
Lemma play_steps_enter (fuel : nat) (video : clip) (step_idx : Z) (s : state)
    (seg : segment) :
  step_idx < Z.of_nat (length (step_timestamps s)) ->
  segment_at (step_timestamps s) (duration video) step_idx = inr seg ->
  play_steps tick_at events_at subclip (S fuel) video true step_idx s =
  match subclip video (clip_start seg) (clip_end seg) with
  | inl ValueError => Ok (false, step_idx) s
  | inl e => Raise e s
  | inr c =>
      bind (play_clip tick_at (play_event_func events_at) fuel c true)
        (fun r => play_steps tick_at events_at subclip fuel video r.1
                    (next_step_idx step_idx r.2)) s
  end.
Proof.
  intros Hidx Hseg.
  cbn [play_steps]. unfold bind at 1 2, get_steps.
  replace (step_idx <? Z.of_nat (length (step_timestamps s))) with true
    by (symmetry; by apply Z.ltb_lt).
  cbn [andb]. rewrite Hseg. cbn [lift ret].
  destruct (subclip video (clip_start seg) (clip_end seg)) as [[] | c]; try reflexivity.
  unfold bind.
  by destruct (play_clip tick_at (play_event_func events_at) fuel c true s) as [[] | |].
Qed.

(** One turn of the playback loop, when the clip can be cut. *)
Lemma play_steps_turn (fuel : nat) (video : clip) (step_idx : Z) (s s' : state)
    (seg : segment) (c : clip) (running' : bool) (d : delta) :
  step_idx < Z.of_nat (length (step_timestamps s)) ->
  segment_at (step_timestamps s) (duration video) step_idx = inr seg ->
  subclip video (clip_start seg) (clip_end seg) = inr c ->
  play_clip tick_at (play_event_func events_at) fuel c true s = Ok (running', d) s' ->
  play_steps tick_at events_at subclip (S fuel) video true step_idx s =
  play_steps tick_at events_at subclip fuel video running' (next_step_idx step_idx d) s'.
Proof.
  intros Hidx Hseg Hclip Hplay.
  rewrite (play_steps_enter fuel video step_idx s seg Hidx Hseg), Hclip.
  unfold bind. by rewrite Hplay.
Qed.

Lemma play_steps_idx_nonneg (fuel : nat) (video : clip) (running : bool) (step_idx : Z)
    (s s' : state) (running' : bool) (step_idx' : Z) :
  0 <= step_idx ->
  play_steps tick_at events_at subclip fuel video running step_idx s
    = Ok (running', step_idx') s' ->
  0 <= step_idx'.
Proof.
  revert running step_idx s.
  induction fuel as [| fuel IH]; intros running step_idx s Hidx Hrun;
    cbn [play_steps] in Hrun; unfold bind, get_steps in Hrun;
    destruct (running && (step_idx <? Z.of_nat (length (step_timestamps s))));
    try (injection Hrun as _ <- _; exact Hidx); try discriminate.
  destruct (segment_at (step_timestamps s) (duration video) step_idx) as [e | seg];
    cbn [lift raise ret] in Hrun; [discriminate |].
  destruct (subclip video (clip_start seg) (clip_end seg)) as [[] | c];
    try discriminate.
  - injection Hrun as _ <- _. exact Hidx.
  - destruct (play_clip tick_at (play_event_func events_at) fuel c true s)
      as [[running1 d] s1 | e s1 | s1]; try discriminate.
    eapply IH; [| exact Hrun]. apply next_step_idx_nonneg.
Qed.

End PlaySteps.

(** C5: whatever deltas the navigator applies from index 0 on, [step_idx]
    is never negative, neither on the way nor when the playback loop is
    left; a rewind at index 0 leaves [step_idx] at 0, and the loop goes on at
    index 0 with the segment it has just played. *)
Theorem step_idx_never_negative :
  (forall deltas : list delta, Forall (fun i => 0 <= i) (step_indices 0 deltas)) /\
  (forall tick_at events_at subclip fuel video running (s s' : state) running' step_idx',
     play_steps tick_at events_at subclip fuel video running 0 s
       = Ok (running', step_idx') s' ->
     0 <= step_idx') /\
  next_step_idx 0 (Some (-1)) = 0 /\
  (forall tick_at events_at subclip fuel video (s s' : state) seg c running',
     0 < Z.of_nat (length (step_timestamps s)) ->
     segment_at (step_timestamps s) (duration video) 0 = inr seg ->
     subclip video (clip_start seg) (clip_end seg) = inr c ->
     play_clip tick_at (play_event_func events_at) fuel c true s
       = Ok (running', Some (-1)) s' ->
     play_steps tick_at events_at subclip (S fuel) video true 0 s =
       play_steps tick_at events_at subclip fuel video running' 0 s' /\
     segment_at (step_timestamps s') (duration video) 0 = inr seg).
Proof.
  split; [| split; [| split]].
  - intros deltas. by apply step_indices_nonneg.
  - intros tick_at events_at subclip fuel video running s s' running' step_idx' Hrun.
    by eapply play_steps_idx_nonneg; [| exact Hrun].
  - reflexivity.
  - intros tick_at events_at subclip fuel video s s' seg c running' Hlen Hseg Hclip Hplay.
    split.
    + by rewrite (play_steps_turn tick_at events_at subclip fuel video 0 s s' seg c
                    running' (Some (-1))).
    + pose proof (play_clip_same_steps tick_at events_at fuel c true s) as Hsame.
      unfold ends_in in Hsame. rewrite Hplay in Hsame. cbn in Hsame.
      unfold same_steps in Hsame. by rewrite Hsame.
Qed.

(** C6: when [video.subclip] raises [ValueError] for the segment of the
    current index, the playback loop is left with [running] false and the
    index and the state as they were, and no exception leaves it. *)
Theorem invalid_range_ends_session
    (tick_at : nat -> Z) (events_at : nat -> list event)
    (subclip : clip -> Q -> Q -> exn + clip)
    (fuel : nat) (video : clip) (step_idx : Z) (s : state) (seg : segment) :
  step_idx < Z.of_nat (length (step_timestamps s)) ->
  segment_at (step_timestamps s) (duration video) step_idx = inr seg ->
  subclip video (clip_start seg) (clip_end seg) = inl ValueError ->
  play_steps tick_at events_at subclip (S fuel) video true step_idx s
    = Ok (false, step_idx) s.
Proof.
  intros Hidx Hseg Hclip.
  rewrite (play_steps_enter tick_at events_at subclip fuel video step_idx s seg Hidx Hseg).
  by rewrite Hclip.
Qed.

Lemma invalid_range_ends_session_witness :
  play_steps on_time no_events subclip_25fps 1 video_20s true 1 (loaded [5; 30]%Q)
    = Ok (false, 1) (loaded [5; 30]%Q).
Proof.
  apply (invalid_range_ends_session on_time no_events subclip_25fps 0 video_20s 1
           (loaded [5; 30]%Q) (mkSegment 30 (inject_Z (py_int 20)))).
  - reflexivity.
  - reflexivity.
  - reflexivity.
Defined.

(** With the steps 5 and 12 loaded the user rewinds at once: the navigator
    stays at index 0 and plays the segment from 5 to 12 again. *)
Lemma step_idx_never_negative_witness :
  play_steps on_time rewind_then_quit subclip_25fps 3 video_20s true 0 (loaded [5; 12]%Q) =
    play_steps on_time rewind_then_quit subclip_25fps 2 video_20s true 0
      (mkState 0 1 [5; 12]%Q [Render 0; MusicPlay; ScreenFill; MusicLoad; AudioWrite]) /\
  segment_at [5; 12]%Q (duration video_20s) 0 = inr (mkSegment 5 12).
Proof.
  apply (proj2 (proj2 (proj2 step_idx_never_negative))
           on_time rewind_then_quit subclip_25fps 2%nat video_20s (loaded [5; 12]%Q)
           (mkState 0 1 [5; 12]%Q [Render 0; MusicPlay; ScreenFill; MusicLoad; AudioWrite])
           (mkSegment 5 12) (mkClip 25 (12 - 5) 2%nat) true).
  - reflexivity.
  - reflexivity.
  - reflexivity.
  - reflexivity.
Defined.

(** The session of [main] when the first segment cannot be cut: the steps
    are read from the store, the playback loop is left at once and [main]
    ends with [pygame.quit()]. *)
Corollary main_ends_on_invalid_range
    (tick_at : nat -> Z) (events_at : nat -> list event)
    (subclip : clip -> Q -> Q -> exn + clip)
    (json_dumps : list Q -> string) (json_loads : string -> option (list Q))
    (fuel : nat) (video_path : string) (video : clip)
    (database : gmap string (list byte)) (steps : list Q) (seg : segment) (s : state) :
  get_timestamps_for_video json_loads database video_path = inr steps ->
  steps <> [] ->
  segment_at steps (duration video) 0 = inr seg ->
  subclip video (clip_start seg) (clip_end seg) = inl ValueError ->
  main tick_at events_at subclip json_dumps json_loads (S fuel) false video_path video
    database s =
  Ok database
     (mkState (ticks_taken s) (polls_taken s) steps (PygameQuit :: effects s)).
Proof.
  intros Hget Hsteps Hseg Hclip.
  unfold main, bind. rewrite Hget. cbn [lift ret set_steps].
  destruct steps as [| x steps]; [done |]. cbn [length Nat.eqb ret].
  rewrite (play_steps_enter tick_at events_at subclip fuel video 0 _ seg);
    [| cbn; lia | exact Hseg].
  by rewrite Hclip.
Qed.

(** ** Recording *)

(** However the recording pass returns, the step list it leaves is written
    to the store: the row of the video holds its encoding, reading the row
    gives what the codec decodes from it, and the other rows are as before. *)
Lemma record_steps_persists
    (tick_at : nat -> Z) (events_at : nat -> list event)
    (json_dumps : list Q -> string) (json_loads : string -> option (list Q))
    (fuel : nat) (video_path : string) (video : clip)
    (database : gmap string (list byte)) (s s' : state) (running' : bool) (d : delta) :
  play_clip tick_at (record_event_func events_at) fuel video false s = Ok (running', d) s' ->
  exists database' : gmap string (list byte),
    record_steps tick_at events_at json_dumps fuel video_path video database s
      = Ok (running', database') s' /\
    database' !! video_path = Some (encode_utf8 (json_dumps (step_timestamps s'))) /\
    get_timestamps_for_video json_loads database' video_path =
      match json_loads (json_dumps (step_timestamps s')) with
      | Some timestamps => inr timestamps
      | None => inl JSONDecodeError
      end /\
    (forall other : string, other <> video_path -> database' !! other = database !! other).
Proof.
  intros Hplay.
  exists (set_timestamps_for_video json_dumps database video_path (step_timestamps s')).
  split; [| split; [| split]].
  - unfold record_steps, bind. rewrite Hplay. reflexivity.
  - unfold set_timestamps_for_video. apply lookup_insert_eq.
  - unfold get_timestamps_for_video, set_timestamps_for_video.
    by rewrite lookup_insert_eq, decode_encode_utf8.
  - intros other Hother. unfold set_timestamps_for_video.
    by apply lookup_insert_ne.
Qed.

Section QuietRecording.

Variable tick_at : nat -> Z.
Variable events_at : nat -> list event.

(** [clock.tick] waits for the frame interval: some time passes. *)
Hypothesis ticks_positive : forall k, 1 <= tick_at k.
(** The user neither leaves nor pauses. *)
Hypothesis no_quit_no_pause : forall k, forallb not_quit_or_pause (events_at k) = true.

Lemma record_events_idle (c : clip) (i : nat) (evs : list event) (paused : bool) (s : state) :
  (0 < fps c)%Q ->
  forallb not_quit_or_pause evs = true ->
  exists s' : state, for_each (record_event c i) evs (true, paused) s = Ok (true, paused) s'.
Proof.
  intros Hfps. revert s. induction evs as [| e evs IH]; intros s Hevs; cbn in *.
  - by eexists.
  - apply andb_true_iff in Hevs as [He Hevs]. unfold bind.
    destruct e as [| k ctrl |]; [discriminate | | by apply IH].
    destruct k, ctrl; try discriminate; cbn; try (by apply IH);
      unfold bind; rewrite py_div_nonzero by lra; cbn; by apply IH.
Qed.

Lemma record_event_func_idle (c : clip) (i : nat) (paused : bool) (s : state) :
  (0 < fps c)%Q ->
  exists s' : state,
    record_event_func events_at c i paused s = Ok (true, paused, None) s'.
Proof.
  intros Hfps. unfold record_event_func, bind. cbn [pygame_event_get].
  edestruct (record_events_idle c i (events_at (polls_taken s)) paused) as [s' ->];
    [exact Hfps | apply no_quit_no_pause |].
  by eexists.
Qed.

Lemma wait_loop_bounded (n : nat) (m d : Q) (s : state) :
  (-1 * m - d <= inject_Z (Z.of_nat n))%Q ->
  exists (d' : Q) (s' : state),
    forall fuel : nat, (n <= fuel)%nat -> wait_loop tick_at fuel m d s = Ok d' s'.
Proof.
  revert d s. induction n as [| n IH]; intros d s Hn.
  - exists d, s. intros fuel _. apply wait_loop_done, Qltb_ge.
    change (inject_Z (Z.of_nat 0)) with 0%Q in Hn. lra.
  - destruct (Qltb d (-1 * m)) eqn:Hlate.
    + destruct (IH (d + inject_Z (tick_at (ticks_taken s)))%Q
                  (final_state (clock_tick tick_at s))) as (d' & s' & Hrun).
      { rewrite Nat2Z.inj_succ in Hn. unfold Z.succ in Hn. rewrite inject_Z_plus in Hn.
        assert (1 <= inject_Z (tick_at (ticks_taken s)))%Q as Hq.
        { change 1%Q with (inject_Z 1). rewrite <- Zle_Qle. apply ticks_positive. }
        change (inject_Z 1) with 1%Q in Hn.
        generalize dependent (inject_Z (tick_at (ticks_taken s))).
        generalize dependent (inject_Z (Z.of_nat n)).
        intros; lra. }
      exists d', s'. intros [| fuel] Hfuel; [lia |].
      cbn [wait_loop]. rewrite Hlate. unfold bind. cbn [clock_tick].
      apply Hrun. lia.
    + exists d, s. intros fuel _. by apply wait_loop_done.
Qed.

Lemma wait_loop_terminates (m d : Q) (s : state) :
  exists (n : nat) (d' : Q) (s' : state),
    forall fuel : nat, (n <= fuel)%nat -> wait_loop tick_at fuel m d s = Ok d' s'.
Proof.
  exists (Z.to_nat (Qceiling (-1 * m - d))).
  apply wait_loop_bounded.
  eapply Qle_trans; [apply Qle_ceiling |].
  rewrite <- Zle_Qle. lia.
Qed.

Lemma show_frame_idle (c : clip) (m : Q) (i : nat) (d : Q) (s : state) :
  (0 < fps c)%Q ->
  exists (L' : locals) (s' : state),
    (forall fuel : nat,
       show_frame tick_at (record_event_func events_at) fuel c m i d s
         = Ok (Continue, L') s') /\
    calm L'.
Proof.
  intros Hfps.
  destruct (record_event_func_idle c i false (final_state (emit (Render i) s)) Hfps)
    as [s1 Hpoll].
  eexists _, _. split.
  - intros fuel. by apply show_frame_plain.
  - by split.
Qed.

Lemma frame_body_idle (c : clip) (m : Q) (i : nat) (L : locals) (s : state) :
  (0 < fps c)%Q ->
  exists (n : nat) (L' : locals) (s' : state),
    (forall fuel : nat, (n <= fuel)%nat ->
       frame_body tick_at (record_event_func events_at) fuel c m i L s
         = Ok (Continue, L') s') /\
    (calm L -> calm L') /\
    (Qltb m (current_video_delay_ms L) = false -> calm L').
Proof.
  intros Hfps.
  unfold frame_body. destruct (Qltb m (current_video_delay_ms L)) eqn:Hdrop.
  - exists 0%nat. eexists _, _. split; [reflexivity |]. split; [| discriminate].
    intros [Hrun Hdelta]. by split.
  - destruct (wait_loop_terminates m (current_video_delay_ms L) s) as (n & d & s1 & Hwait).
    destruct (show_frame_idle c m i d s1 Hfps) as (L' & s' & Hshow & Hcalm).
    exists n, L', s'. split; [| by split].
    intros fuel Hfuel. unfold bind. rewrite (Hwait fuel Hfuel). apply Hshow.
Qed.

Lemma frame_loop_idle (c : clip) (m : Q) (frames : list nat) (L : locals) (s : state) :
  (0 < fps c)%Q ->
  exists (n : nat) (L' : locals) (s' : state),
    (forall fuel : nat, (n <= fuel)%nat ->
       frame_loop tick_at (record_event_func events_at) fuel c m frames L s = Ok L' s') /\
    (calm L -> calm L') /\
    (frames <> [] -> Qltb m (current_video_delay_ms L) = false -> calm L').
Proof.
  intros Hfps. revert L s. induction frames as [| i frames IH]; intros L s.
  - exists 0%nat, L, s. split; [reflexivity |]. split; [auto | done].
  - destruct (frame_body_idle c m i L s Hfps) as (n1 & L1 & s1 & Hbody & Hkeep1 & Hfirst).
    destruct (IH L1 s1) as (n2 & L2 & s2 & Hloop & Hkeep2 & _).
    exists (Nat.max n1 n2), L2, s2. split; [| split; auto].
    intros fuel Hfuel. cbn [frame_loop]. unfold bind.
    rewrite Hbody by lia. apply Hloop. lia.
Qed.

Lemma play_clip_idle (c : clip) (s : state) :
  (0 < fps c)%Q -> (0 < nframes c)%nat ->
  exists (n : nat) (s' : state),
    forall fuel : nat, (n <= fuel)%nat ->
      play_clip tick_at (record_event_func events_at) fuel c false s = Ok (true, None) s'.
Proof.
  intros Hfps Hframes.
  set (m := (1000 / fps c)%Q).
  assert (0 < m)%Q as Hm.
  { unfold m. apply Qlt_shift_div_l; [exact Hfps | lra]. }
  set (s1 := mkState (ticks_taken s) (polls_taken s) (step_timestamps s)
               (MusicPlay :: ScreenFill :: MusicLoad :: AudioWrite :: effects s)).
  destruct (frame_loop_idle c m (seq 0 (nframes c)) (mkLocals 0 true Unbound) s1 Hfps)
    as (n & L' & s' & Hloop & _ & Hcalm).
  destruct Hcalm as [Hrun Hdelta].
  { destruct (nframes c); [lia | discriminate]. }
  { apply Qltb_ge. cbn. lra. }
  exists (S n), s'. intros [| fuel] Hfuel; [lia |].
  unfold play_clip, bind. cbn [emit].
  replace (Qeq_bool (fps c) 0) with false.
  2: { symmetry. apply not_true_iff_false. intros Heq. apply Qeq_bool_eq in Heq. lra. }
  cbn [pass_loop]. unfold bind, one_pass, bind. cbn [emit].
  replace (Nat.eqb (nframes c) 0) with false
    by (symmetry; apply Nat.eqb_neq; lia).
  cbn [ret ticks_taken polls_taken step_timestamps effects]. fold m s1.
  rewrite (Hloop fuel) by lia.
  cbn [stop_looping negb ret]. rewrite Hrun, Hdelta. reflexivity.
Qed.

End QuietRecording.

(** C8: however the recording pass returns, the step list it leaves is
    written to the store: afterwards the row of the video holds the encoding
    of that list, reading the row with [get_timestamps_for_video] gives what
    the codec decodes from it, and the rows of other videos are untouched.
    And when the clip has frames, time passes at every tick and the user
    neither leaves nor pauses, the pass does return, with [running] true
    and no navigation request, and its step list is stored in that way. *)
Theorem recording_pass_is_saved
    (tick_at : nat -> Z) (events_at : nat -> list event)
    (json_dumps : list Q -> string) (json_loads : string -> option (list Q))
    (video_path : string) (video : clip) (database : gmap string (list byte)) :
  (forall (fuel : nat) (s s' : state) (running' : bool) (d : delta),
     play_clip tick_at (record_event_func events_at) fuel video false s
       = Ok (running', d) s' ->
     exists database' : gmap string (list byte),
       record_steps tick_at events_at json_dumps fuel video_path video database s
         = Ok (running', database') s' /\
       database' !! video_path = Some (encode_utf8 (json_dumps (step_timestamps s'))) /\
       get_timestamps_for_video json_loads database' video_path =
         match json_loads (json_dumps (step_timestamps s')) with
         | Some timestamps => inr timestamps
         | None => inl JSONDecodeError
         end /\
       (forall other : string,
          other <> video_path -> database' !! other = database !! other)) /\
  ((0 < fps video)%Q -> (0 < nframes video)%nat ->
   (forall k, 1 <= tick_at k) ->
   (forall k, forallb not_quit_or_pause (events_at k) = true) ->
   forall s : state,
   exists (n : nat) (s' : state) (database' : gmap string (list byte)),
     (forall fuel : nat, (n <= fuel)%nat ->
        play_clip tick_at (record_event_func events_at) fuel video false s
          = Ok (true, None) s' /\
        record_steps tick_at events_at json_dumps fuel video_path video database s
          = Ok (true, database') s') /\
     database' !! video_path = Some (encode_utf8 (json_dumps (step_timestamps s'))) /\
     get_timestamps_for_video json_loads database' video_path =
       match json_loads (json_dumps (step_timestamps s')) with
       | Some timestamps => inr timestamps
       | None => inl JSONDecodeError
       end /\
     (forall other : string,
        other <> video_path -> database' !! other = database !! other)).
Proof.
  split.
  - intros fuel s s' running' d. apply record_steps_persists.
  - intros Hfps Hframes Hticks Hevents s.
    destruct (play_clip_idle tick_at events_at Hticks Hevents video s Hfps Hframes)
      as (n & s' & Hplay).
    destruct (record_steps_persists tick_at events_at json_dumps json_loads n video_path
                video database s s' true None (Hplay n (le_n n)))
      as (database' & Hrecord & Hrow & Hread & Hothers).
    exists n, s', database'. split; [| by split].
    intros fuel Hfuel. split; [by apply Hplay |].
    destruct (record_steps_persists tick_at events_at json_dumps json_loads fuel video_path
                video database s s' true None (Hplay fuel Hfuel))
      as (database'' & Hrecord' & Hrow' & _ & Hothers').
    rewrite Hrecord'. do 2 f_equal. apply map_eq. intros path.
    destruct (decide (path = video_path)) as [-> | Hne].
    + by rewrite Hrow, Hrow'.
    + by rewrite Hothers, Hothers'.
Qed.

Lemma recording_pass_is_saved_witness :
  exists (n : nat) (s' : state) (database' : gmap string (list byte)),
    (forall fuel : nat, (n <= fuel)%nat ->
       play_clip on_time (record_event_func mark_at_two_seconds) fuel (clip_25fps 75) false start
         = Ok (true, None) s' /\
       record_steps on_time mark_at_two_seconds dumps_whole_seconds fuel "/videos/a.mp4"
         (clip_25fps 75) ∅ start = Ok (true, database') s') /\
    database' !! "/videos/a.mp4"%string
      = Some (encode_utf8 (dumps_whole_seconds (step_timestamps s'))) /\
    get_timestamps_for_video loads_whole_seconds database' "/videos/a.mp4" =
      match loads_whole_seconds (dumps_whole_seconds (step_timestamps s')) with
      | Some timestamps => inr timestamps
      | None => inl JSONDecodeError
      end /\
    (forall other : string,
       other <> "/videos/a.mp4"%string -> database' !! other = (∅ : gmap string (list byte)) !! other).
Proof.
  apply (proj2 (recording_pass_is_saved on_time mark_at_two_seconds dumps_whole_seconds
                  loads_whole_seconds "/videos/a.mp4" (clip_25fps 75) ∅)).
  - reflexivity.
  - cbn. lia.
  - intros k. unfold on_time. lia.
  - intros k. unfold mark_at_two_seconds. by destruct (Nat.eqb k 50).
Defined.

(** That recording, run: the one step marked is in the store afterwards. *)
Example recording_saved :
  exists s' : state,
    record_steps on_time mark_at_two_seconds dumps_whole_seconds 1 "/videos/a.mp4"
      (clip_25fps 75) ∅ start =
    Ok (true, {[ "/videos/a.mp4"%string := encode_utf8 "[2]" ]}) s' /\
    step_timestamps s' = [2]%Q /\
    shown s' = seq 0 75 /\
    get_timestamps_for_video loads_whole_seconds
      {[ "/videos/a.mp4"%string := encode_utf8 "[2]" ]} "/videos/a.mp4" = inr [2]%Q.
Proof.
  eexists. split; [vm_compute; reflexivity |].
  split; [vm_compute; reflexivity |]. split; vm_compute; reflexivity.
Qed.

(** A recording the user breaks off after 31 of 75 frames: the pass returns
    with [running] false and the step marked so far is in the store. *)
Example aborted_recording_saved :
  exists s' : state,
    record_steps on_time mark_then_quit dumps_whole_seconds 1 "/videos/a.mp4"
      (clip_25fps 75) ∅ start =
    Ok (false, {[ "/videos/a.mp4"%string := encode_utf8 "[1]" ]}) s' /\
    step_timestamps s' = [1]%Q /\
    shown s' = seq 0 31.
Proof.
  eexists. split; [vm_compute; reflexivity |]. split; vm_compute; reflexivity.
Qed.

(** * Further properties *)

(** ** What one poll of a handler returns *)

Lemma xorb_odd_succ (p : bool) (n : nat) :
  xorb p (Nat.odd (S n)) = xorb (negb p) (Nat.odd n).
Proof.
  rewrite Nat.odd_succ, <- Nat.negb_odd. by destruct p, (Nat.odd n).
Qed.

Lemma record_events_fold (c : clip) (i : nat) (evs : list event)
    (running0 paused0 : bool) (s : state) :
  for_each (record_event c i) evs (running0, paused0) s =
  if Qeq_bool (fps c) 0 && existsb is_mark_key evs
  then Raise ZeroDivisionError s
  else
    Ok (running0 && negb (existsb is_quit_event evs),
        xorb paused0 (Nat.odd (count_events is_pause_key evs)))
       (mkState (ticks_taken s) (polls_taken s)
          (step_timestamps s ++
             replicate (count_events is_mark_key evs)
               (binary64 (inject_Z (Z.of_nat i) / fps c)))
          (effects s)).
Proof.
  revert running0 paused0 s.
  induction evs as [| e evs IH]; intros running0 paused0 s.
  - cbn. rewrite andb_false_r, andb_true_r, xorb_false_r, app_nil_r. by destruct s.
  - cbn [for_each]. unfold bind.
    destruct e as [| k ctrl |].
    + cbn. rewrite IH. cbn. by rewrite andb_false_r.
    + destruct k, ctrl; cbn [record_event ret bind append_step lift];
        unfold bind, lift, py_div;
        cbn [is_quit_event is_pause_key is_mark_key existsb count_events orb negb Nat.add];
        destruct (Qeq_bool (fps c) 0) eqn:Hfps;
        cbn [andb append_step ret]; try reflexivity;
        rewrite IH, ?Hfps;
        cbn [andb ticks_taken polls_taken step_timestamps effects];
        rewrite ?andb_false_r, ?xorb_odd_succ, <- ?app_assoc; reflexivity.
    + cbn. by rewrite IH.
Qed.

(** X1: one poll of the recording handler.  When the clip's frame rate is
    0 and the poll holds a press of a mark key, [frame_idx / clip.fps]
    raises [ZeroDivisionError], the step list and the display left as they
    were.  Otherwise the poll never asks for a navigation, leaves [running]
    true exactly when no event of the poll is a request to leave, flips
    [paused] once per press of the pause key, and appends to the step list
    one copy of [frame_idx / clip.fps], the quotient rounded to a float, per
    press of a mark key, changing nothing else of the list and nothing of
    the display. *)
Theorem record_event_func_poll (events_at : nat -> list event) (c : clip) (i : nat)
    (paused : bool) (s : state) :
  record_event_func events_at c i paused s =
  if Qeq_bool (fps c) 0 && existsb is_mark_key (events_at (polls_taken s))
  then
    Raise ZeroDivisionError
      (mkState (ticks_taken s) (S (polls_taken s)) (step_timestamps s) (effects s))
  else
    Ok (negb (existsb is_quit_event (events_at (polls_taken s))),
        xorb paused (Nat.odd (count_events is_pause_key (events_at (polls_taken s)))),
        None)
       (mkState (ticks_taken s) (S (polls_taken s))
          (step_timestamps s ++
             replicate (count_events is_mark_key (events_at (polls_taken s)))
               (binary64 (inject_Z (Z.of_nat i) / fps c)))
          (effects s)).
Proof.
  unfold record_event_func, bind. cbn [pygame_event_get].
  rewrite record_events_fold.
  by destruct (Qeq_bool (fps c) 0 && existsb is_mark_key (events_at (polls_taken s))).
Qed.

Lemma play_events_fold (evs : list event) (running0 paused0 : bool) (d0 : delta) :
  fold_left play_event evs (running0, paused0, d0) =
  (running0 && negb (existsb is_quit_event evs),
   xorb paused0 (Nat.odd (count_events is_pause_key evs)),
   match last (omap nav_delta evs) with
   | Some d => Some d
   | None => d0
   end).
Proof.
  revert running0 paused0 d0.
  induction evs as [| e evs IH]; intros running0 paused0 d0.
  - cbn. by rewrite andb_true_r, xorb_false_r.
  - cbn [fold_left]. destruct e as [| k ctrl |].
    + cbn. rewrite IH. by rewrite andb_false_r.
    + destruct k, ctrl; cbn [play_event]; rewrite IH;
        cbn [is_quit_event is_pause_key nav_delta existsb count_events orb negb Nat.add omap
             list_omap];
        rewrite ?andb_false_r, ?xorb_odd_succ, ?last_cons;
        try reflexivity;
        by destruct (last (omap nav_delta evs)).
    + cbn. by rewrite IH.
Qed.

(** X2: one poll of the playback handler leaves [running] true exactly
    when no event of the poll is a request to leave, flips [paused] once per
    press of the pause key, and returns the request of the last navigation
    key of the poll, [None] when there is none; it changes neither the step
    list nor the display. *)
Theorem play_event_func_last_key_wins (events_at : nat -> list event) (c : clip) (i : nat)
    (paused : bool) (s : state) :
  play_event_func events_at c i paused s =
  Ok (negb (existsb is_quit_event (events_at (polls_taken s))),
      xorb paused (Nat.odd (count_events is_pause_key (events_at (polls_taken s)))),
      last (omap nav_delta (events_at (polls_taken s))))
     (mkState (ticks_taken s) (S (polls_taken s)) (step_timestamps s) (effects s)).
Proof.
  rewrite play_event_func_poll, play_events_fold. cbn [andb].
  by destruct (last (omap nav_delta (events_at (polls_taken s)))).
Qed.

(** ** The drawing helpers *)

Lemma py_int_floor (x : Q) : (0 <= x)%Q -> py_int x = Qfloor x.
Proof.
  destruct x as [n d]. unfold Qle, py_int, Qfloor. cbn. intros Hn.
  apply Z.quot_div_nonneg; lia.
Qed.

Lemma py_int_bounds (x : Q) :
  (0 <= x)%Q -> (inject_Z (py_int x) <= x /\ x < inject_Z (py_int x) + 1)%Q.
Proof.
  intros Hx. rewrite py_int_floor by exact Hx. split; [apply Qfloor_le |].
  pose proof (Qlt_floor x) as Hlt. rewrite inject_Z_plus in Hlt. exact Hlt.
Qed.

Lemma py_int_mono (x y : Q) : (0 <= x)%Q -> (x <= y)%Q -> py_int x <= py_int y.
Proof.
  intros Hx Hxy. rewrite !py_int_floor by lra. by apply Qfloor_resp_le.
Qed.

Lemma py_int_nonneg (x : Q) : (0 <= x)%Q -> 0 <= py_int x.
Proof.
  intros Hx. rewrite py_int_floor by exact Hx.
  change 0 with (Qfloor (inject_Z 0)). by apply Qfloor_resp_le.
Qed.

Lemma py_int_le (x : Q) (z : Z) : (0 <= x)%Q -> (x <= inject_Z z)%Q -> py_int x <= z.
Proof.
  intros Hx Hxz. rewrite py_int_floor by exact Hx.
  rewrite <- (Qfloor_Z z). by apply Qfloor_resp_le.
Qed.

Lemma draw_step_markers_ok (video_duration : Q) (scr : screen) (h : Q) (steps : list Q) :
  ~ (video_duration == 0)%Q ->
  draw_step_markers video_duration scr h steps =
  (map (fun step =>
          DrawRect White
            (mkRect (step / video_duration * inject_Z (get_width scr))%Q
                    (inject_Z (get_height scr) - h)%Q 1 h)) steps,
   None).
Proof.
  intros Hdur. induction steps as [| step steps IH]; [reflexivity |].
  cbn [draw_step_markers]. rewrite py_div_nonzero by exact Hdur. by rewrite IH.
Qed.


Lemma red_bar_width_markers (f : Q -> rect) (steps : list Q) :
  red_bar_width (map (fun step => DrawRect White (f step)) steps) = None.
Proof. induction steps as [| step steps IH]; [reflexivity | exact IH]. Qed.

(** X3: [draw_progress_bar] ends with a [ZeroDivisionError] exactly when
    the clip bar is asked for and [clip_fps * (clip_end - clip_start)] is 0,
    or [clip_fps * video_duration] is 0; it ends with no other exception. *)
Theorem draw_progress_bar_raises_iff
    (clip_fps clip_start clip_end video_duration : Q) (scr : screen) (frame_idx : nat)
    (draw_clip : bool) (steps : list Q) :
  let err :=
    snd (draw_progress_bar clip_fps clip_start clip_end video_duration scr frame_idx
           draw_clip steps) in
  (err = Some ZeroDivisionError <->
   (draw_clip = true /\ (clip_fps * (clip_end - clip_start) == 0)%Q) \/
   (clip_fps * video_duration == 0)%Q) /\
  (err = None \/ err = Some ZeroDivisionError).
Proof.
  cbv zeta. unfold draw_progress_bar.
  assert (forall drawn h,
            ~ (clip_fps * video_duration == 0)%Q ->
            snd (match py_div (clip_fps * clip_start + inject_Z (Z.of_nat frame_idx))
                         (clip_fps * video_duration) with
                 | inl e => (drawn, Some e)
                 | inr pct =>
                     let '(markers, err) := draw_step_markers video_duration scr h steps in
                     (drawn ++
                        DrawRect Red
                          (mkRect 0 (inject_Z (get_height scr) - h)
                             (inject_Z (py_int (inject_Z (get_width scr) * pct))) h)
                        :: markers, err)
                 end) = None) as Hfull.
  { intros drawn h Hden. rewrite py_div_nonzero by exact Hden.
    rewrite draw_step_markers_ok; [reflexivity |].
    intros Hdur. apply Hden. rewrite Hdur. ring. }
  destruct (Qeq_dec (clip_fps * video_duration) 0) as [Hzero | Hnonzero].
  - destruct draw_clip.
    + destruct (Qeq_dec (clip_fps * (clip_end - clip_start)) 0) as [Hclip | Hclip].
      * rewrite (py_div_zero _ _ Hclip). cbn. split; [| by right]. split; auto.
      * rewrite (py_div_nonzero _ _ Hclip), (py_div_zero _ _ Hzero). cbn.
        split; [| by right]. split; auto.
    + rewrite (py_div_zero _ _ Hzero). cbn. split; [| by right]. split; auto.
  - destruct draw_clip.
    + destruct (Qeq_dec (clip_fps * (clip_end - clip_start)) 0) as [Hclip | Hclip].
      * rewrite (py_div_zero _ _ Hclip). cbn. split; [| by right]. split; auto.
      * rewrite (py_div_nonzero _ _ Hclip). rewrite Hfull by exact Hnonzero.
        split; [| by left]. split; [discriminate |].
        intros [[_ H] | H]; contradiction.
    + rewrite Hfull by exact Hnonzero.
      split; [| by left]. split; [discriminate |].
      intros [[H _] | H]; [discriminate | contradiction].
Qed.

(** What is drawn when no division fails. *)
Lemma draw_progress_bar_ok
    (clip_fps clip_start clip_end video_duration : Q) (scr : screen) (frame_idx : nat)
    (draw_clip : bool) (steps : list Q) :
  ~ (clip_fps * video_duration == 0)%Q ->
  (draw_clip = true -> ~ (clip_fps * (clip_end - clip_start) == 0)%Q) ->
  exists (clip_bar : list drawing) (h : Q),
    red_bar_width clip_bar = None /\ marker_lefts clip_bar = [] /\
    draw_progress_bar clip_fps clip_start clip_end video_duration scr frame_idx draw_clip steps
    = (clip_bar ++
         DrawRect Red
           (mkRect 0 (inject_Z (get_height scr) - h)
              (inject_Z
                 (py_int (inject_Z (get_width scr) *
                          ((clip_fps * clip_start + inject_Z (Z.of_nat frame_idx)) /
                           (clip_fps * video_duration)))%Q)) h)
         :: map (fun step =>
                   DrawRect White
                     (mkRect (step / video_duration * inject_Z (get_width scr))%Q
                             (inject_Z (get_height scr) - h)%Q 1 h)) steps,
       None).
Proof.
  intros Hden Hclip.
  assert (~ (video_duration == 0)%Q) as Hdur.
  { intros Hdur. apply Hden. rewrite Hdur. ring. }
  unfold draw_progress_bar. destruct draw_clip.
  - rewrite (py_div_nonzero _ _ (Hclip eq_refl)).
    exists [DrawRect Green
              (mkRect 0 (inject_Z (get_height scr) - 50)%Q
                 (inject_Z
                    (py_int (inject_Z (get_width scr) *
                             (inject_Z (Z.of_nat frame_idx) /
                              (clip_fps * (clip_end - clip_start))))%Q))
                 (50 / 2)%Q)], (50 / 2)%Q.
    split; [reflexivity |]. split; [reflexivity |].
    by rewrite (py_div_nonzero _ _ Hden), (draw_step_markers_ok _ _ _ _ Hdur).
  - exists [], 50%Q. split; [reflexivity |]. split; [reflexivity |].
    by rewrite (py_div_nonzero _ _ Hden), (draw_step_markers_ok _ _ _ _ Hdur).
Qed.



Lemma red_bar_width_app (l1 l2 : list drawing) :
  red_bar_width l1 = None -> red_bar_width (l1 ++ l2) = red_bar_width l2.
Proof.
  induction l1 as [| d l1 IH]; [reflexivity |].
  destruct d as [[] r |]; cbn; auto; discriminate.
Qed.

Lemma red_bar_width_ok
    (clip_fps clip_start clip_end video_duration : Q) (scr : screen) (frame_idx : nat)
    (draw_clip : bool) (steps : list Q) :
  ~ (clip_fps * video_duration == 0)%Q ->
  (draw_clip = true -> ~ (clip_fps * (clip_end - clip_start) == 0)%Q) ->
  red_bar_width
    (fst (draw_progress_bar clip_fps clip_start clip_end video_duration scr frame_idx
            draw_clip steps)) =
  Some (inject_Z
          (py_int (inject_Z (get_width scr) *
                   ((clip_fps * clip_start + inject_Z (Z.of_nat frame_idx)) /
                    (clip_fps * video_duration)))%Q)).
Proof.
  intros Hden Hclip.
  destruct (draw_progress_bar_ok clip_fps clip_start clip_end video_duration scr frame_idx
              draw_clip steps Hden Hclip) as (clip_bar & h & Hnone & _ & ->).
  cbn [fst]. by rewrite red_bar_width_app.
Qed.

(** X5: as long as the frame lies within the video
    ([clip_fps * clip_start + frame_idx <= clip_fps * video_duration]) the
    red bar of [draw_progress_bar] is between 0 and the width of the screen
    wide, and it is at least as wide as it was at any earlier frame. *)
Theorem red_bar_within_screen
    (clip_fps clip_start clip_end video_duration : Q) (scr : screen) (frame_idx : nat)
    (draw_clip : bool) (steps : list Q) :
  0 <= get_width scr ->
  (0 < clip_fps * video_duration)%Q ->
  (draw_clip = true -> ~ (clip_fps * (clip_end - clip_start) == 0)%Q) ->
  (0 <= clip_fps * clip_start)%Q ->
  (clip_fps * clip_start + inject_Z (Z.of_nat frame_idx) <= clip_fps * video_duration)%Q ->
  exists w : Z,
    red_bar_width
      (fst (draw_progress_bar clip_fps clip_start clip_end video_duration scr frame_idx
              draw_clip steps)) = Some (inject_Z w) /\
    0 <= w <= get_width scr /\
    forall earlier : nat, (earlier <= frame_idx)%nat ->
      exists w' : Z,
        red_bar_width
          (fst (draw_progress_bar clip_fps clip_start clip_end video_duration scr earlier
                  draw_clip steps)) = Some (inject_Z w') /\
        w' <= w.
Proof.
  intros Hwidth Hden Hclip Hstart Hend.
  assert (~ (clip_fps * video_duration == 0)%Q) as Hnz by lra.
  assert (0 <= inject_Z (get_width scr))%Q as Hw.
  { change 0%Q with (inject_Z 0). by rewrite <- Zle_Qle. }
  assert (forall k : nat, (k <= frame_idx)%nat ->
            (0 <= (clip_fps * clip_start + inject_Z (Z.of_nat k)) /
                  (clip_fps * video_duration) <=
             (clip_fps * clip_start + inject_Z (Z.of_nat frame_idx)) /
                  (clip_fps * video_duration))%Q) as Hfrac.
  { intros k Hk.
    assert (0 <= inject_Z (Z.of_nat k) <= inject_Z (Z.of_nat frame_idx))%Q as [Hk0 Hk1].
    { split.
      - change 0%Q with (inject_Z 0). rewrite <- Zle_Qle. lia.
      - rewrite <- Zle_Qle. lia. }
    split.
    - apply Qle_shift_div_l; [exact Hden | lra].
    - apply Qle_shift_div_l; [exact Hden |].
      unfold Qdiv. rewrite <- Qmult_assoc, (Qmult_comm (/ _)), Qmult_inv_r by exact Hnz.
      lra. }
  assert ((clip_fps * clip_start + inject_Z (Z.of_nat frame_idx)) /
          (clip_fps * video_duration) <= 1)%Q as Hone.
  { apply Qle_shift_div_r; [exact Hden | lra]. }
  eexists. split; [by apply red_bar_width_ok |]. split.
  - destruct (Hfrac frame_idx (le_n _)) as [Hp0 _]. split.
    + apply py_int_nonneg.
      generalize dependent ((clip_fps * clip_start + inject_Z (Z.of_nat frame_idx)) /
                            (clip_fps * video_duration))%Q.
      generalize dependent (inject_Z (get_width scr)). intros; nra.
    + apply py_int_le.
      * generalize dependent ((clip_fps * clip_start + inject_Z (Z.of_nat frame_idx)) /
                              (clip_fps * video_duration))%Q.
        generalize dependent (inject_Z (get_width scr)). intros; nra.
      * generalize dependent ((clip_fps * clip_start + inject_Z (Z.of_nat frame_idx)) /
                              (clip_fps * video_duration))%Q.
        generalize dependent (inject_Z (get_width scr)). intros; nra.
  - intros earlier Hearlier. eexists. split; [by apply red_bar_width_ok |].
    destruct (Hfrac earlier Hearlier) as [Hp0 Hp1].
    apply py_int_mono.
    + generalize dependent ((clip_fps * clip_start + inject_Z (Z.of_nat earlier)) /
                            (clip_fps * video_duration))%Q.
      generalize dependent (inject_Z (get_width scr)). intros; nra.
    + generalize dependent ((clip_fps * clip_start + inject_Z (Z.of_nat earlier)) /
                            (clip_fps * video_duration))%Q.
      generalize dependent ((clip_fps * clip_start + inject_Z (Z.of_nat frame_idx)) /
                            (clip_fps * video_duration))%Q.
      generalize dependent (inject_Z (get_width scr)). intros; nra.
Qed.

Lemma red_bar_within_screen_witness :
  exists w : Z,
    red_bar_width
      (fst (draw_progress_bar 25 5 12 20 (mkScreen 1728 1022) 50 true [5; 12]%Q))
      = Some (inject_Z w) /\
    0 <= w <= get_width (mkScreen 1728 1022) /\
    forall earlier : nat, (earlier <= 50)%nat ->
      exists w' : Z,
        red_bar_width
          (fst (draw_progress_bar 25 5 12 20 (mkScreen 1728 1022) earlier true [5; 12]%Q))
          = Some (inject_Z w') /\
        w' <= w.
Proof.
  apply (red_bar_within_screen 25 5 12 20 (mkScreen 1728 1022) 50 true [5; 12]%Q).
  - cbn. lia.
  - reflexivity.
  - intros _. discriminate.
  - discriminate.
  - discriminate.
Defined.

(** X6: [resize_keep_aspect_ratio] raises [ZeroDivisionError] exactly when
    the original height is 0.  For sizes in pixels, a width from 0 to
    [2 ^ 32], a height from 1 to [2 ^ 32] and a new height from 0 to
    [2 ^ 32], where binary64 neither overflows nor meets a subnormal number
    above the truncation, it returns [int(new_height)] as the height and a
    width [w] of at least 0 that keeps the aspect ratio up to the truncation
    of [int] and the roundings of the quotient and of the product: with [u]
    the unit roundoff of binary64 and [r] the exact
    [new_height * original_width / original_height],
    [w <= r * (1 + u) * (1 + u)] and [r * (1 - u) * (1 - u) < w + 1],
    written without the division. *)
Theorem resize_keeps_aspect_ratio (original_width original_height new_height : Q) :
  (resize_keep_aspect_ratio original_width original_height new_height
     = inl ZeroDivisionError <-> (original_height == 0)%Q) /\
  ((0 <= original_width <= inject_Z (2 ^ 32))%Q ->
   (1 <= original_height <= inject_Z (2 ^ 32))%Q ->
   (0 <= new_height <= inject_Z (2 ^ 32))%Q ->
   exists w h : Z,
     resize_keep_aspect_ratio original_width original_height new_height = inr (w, h) /\
     h = py_int new_height /\ 0 <= w /\ 0 <= h /\
     (inject_Z w * original_height
        <= new_height * original_width * (1 + unit_roundoff) * (1 + unit_roundoff))%Q /\
     (new_height * original_width * (1 - unit_roundoff) * (1 - unit_roundoff)
        < (inject_Z w + 1) * original_height)%Q).
Proof.
  unfold resize_keep_aspect_ratio. split.
  - destruct (Qeq_dec original_height 0) as [Hzero | Hnonzero].
    + by rewrite (py_div_zero _ _ Hzero).
    + rewrite (py_div_nonzero _ _ Hnonzero). split; [discriminate | contradiction].
  - intros [Hw _] [Hh1 _] [Hn _].
    assert (0 < original_height)%Q as Hh by lra.
    rewrite py_div_nonzero by lra. cbv zeta.
    set (q := (original_width / original_height)%Q).
    assert (q * original_height == original_width)%Q as Hq by (unfold q; field; lra).
    assert (0 <= q)%Q as Hq0.
    { unfold q. apply Qle_shift_div_l; [exact Hh | lra]. }
    destruct (binary64_near q Hq0) as [Halo Hahi].
    pose proof (binary64_nonneg q Hq0) as Ha0.
    set (a := binary64 q) in *.
    assert (0 <= new_height * a)%Q as Hz0 by (by apply Qmult_le_0_compat).
    destruct (binary64_near (new_height * a) Hz0) as [Hblo Hbhi].
    pose proof (binary64_nonneg (new_height * a) Hz0) as Hb0.
    set (b := binary64 (new_height * a)) in *.
    destruct (py_int_bounds b Hb0) as [Hlo Hhi].
    exists (py_int b), (py_int new_height).
    split; [reflexivity |]. split; [reflexivity |].
    split; [by apply py_int_nonneg |]. split; [by apply py_int_nonneg |].
    generalize dependent (inject_Z (py_int b)). intros iw Hlo Hhi.
    unfold unit_roundoff in *.
    set (U := (1 + (1 # 9007199254740992))%Q) in *.
    set (V := (1 - (1 # 9007199254740992))%Q) in *.
    assert (0 < U)%Q as HU by reflexivity.
    assert (0 < V)%Q as HV by reflexivity.
    clearbody U V a b.
    assert (new_height * a <= new_height * (q * U))%Q as H1.
    { rewrite !(Qmult_comm new_height). by apply Qmult_le_compat_r. }
    assert (new_height * (q * V) <= new_height * a)%Q as H2.
    { rewrite !(Qmult_comm new_height). by apply Qmult_le_compat_r. }
    assert (new_height * a * U <= new_height * (q * U) * U)%Q as H3.
    { apply Qmult_le_compat_r; [exact H1 | lra]. }
    assert (new_height * (q * V) * V <= new_height * a * V)%Q as H4.
    { apply Qmult_le_compat_r; [exact H2 | lra]. }
    assert (iw * original_height <= new_height * (q * U) * U * original_height)%Q as H5.
    { apply Qmult_le_compat_r; lra. }
    assert (new_height * (q * V) * V * original_height < (iw + 1) * original_height)%Q as H6.
    { apply Qmult_lt_compat_r; lra. }
    assert (new_height * (q * U) * U * original_height
            == new_height * original_width * U * U)%Q as H7.
    { rewrite <- Hq. ring. }
    assert (new_height * (q * V) * V * original_height
            == new_height * original_width * V * V)%Q as H8.
    { rewrite <- Hq. ring. }
    split; lra.
Qed.

Lemma resize_keeps_aspect_ratio_witness :
  exists w h : Z,
    resize_keep_aspect_ratio 3 11 55 = inr (w, h) /\
    h = py_int 55 /\ 0 <= w /\ 0 <= h /\
    (inject_Z w * 11 <= 55 * 3 * (1 + unit_roundoff) * (1 + unit_roundoff))%Q /\
    (55 * 3 * (1 - unit_roundoff) * (1 - unit_roundoff) < (inject_Z w + 1) * 11)%Q.
Proof.
  apply (proj2 (resize_keeps_aspect_ratio 3 11 55)).
  - split; discriminate.
  - split; discriminate.
  - split; discriminate.
Defined.

(** The quotient [3 / 11] is rounded down, and so is its product with 55:
    the width is 14 where the exact quotient gives 15, and a video of 1280
    by 536 resized to a height of 804 is 1919 wide, not 1920. *)
Example resize_rounds_below_exact :
  resize_keep_aspect_ratio 3 11 55 = inr (14, 55) /\
  resize_keep_aspect_ratio 1280 536 804 = inr (1919, 804).
Proof. split; vm_compute; reflexivity. Qed.

(** ** The synchronisation engine *)





Lemma pass_loop_repeat_result
    (tick_at : nat -> Z) (event_func : clip -> nat -> bool -> M controls)
    (fuel : nat) (c : clip) (m : Q) (L : locals) (s s' : state) (r : bool) (d : delta) :
  pass_loop tick_at event_func fuel c m true L s = Ok (r, d) s' ->
  r = false \/ d = Some 1 \/ d = Some (-1).
Proof.
  revert L s. induction fuel as [| fuel IH]; intros L s Hrun; [discriminate |].
  cbn [pass_loop] in Hrun. unfold bind in Hrun.
  destruct (one_pass tick_at event_func fuel c m L s) as [L1 s1 | |]; try discriminate.
  unfold stop_looping in Hrun. cbn [negb] in Hrun.
  destruct (running L1) eqn:Hrunning; cbn [negb ret] in Hrun.
  - unfold bind in Hrun. destruct (step_delta L1) as [| d1]; cbn in Hrun; [discriminate |].
    destruct (is_advance_or_rewind d1) eqn:Hstep.
    + injection Hrun as <- <- <-. right. by apply is_advance_or_rewind_spec.
    + by eapply IH.
  - destruct (step_delta L1) as [| d1]; cbn in Hrun; [discriminate |].
    injection Hrun as <- <- <-. by left.
Qed.

(** X9: with [repeat] set, [play_clip] returns only when the user has asked
    to leave or for the next or the previous step: the result has [running]
    false or a [step_delta] of 1 or -1; a restart (0) or the end of the clip
    never makes it return. *)
Theorem play_clip_repeat_returns_on_quit_or_step
    (tick_at : nat -> Z) (event_func : clip -> nat -> bool -> M controls)
    (fuel : nat) (c : clip) (s s' : state) (r : bool) (d : delta) :
  play_clip tick_at event_func fuel c true s = Ok (r, d) s' ->
  r = false \/ d = Some 1 \/ d = Some (-1).
Proof.
  unfold play_clip, bind. cbn [emit].
  destruct (Qeq_bool (fps c) 0); [discriminate |].
  apply pass_loop_repeat_result.
Qed.

Lemma play_clip_repeat_returns_on_quit_or_step_witness :
  true = false \/ Some (-1) = Some 1 \/ Some (-1) = Some (-1).
Proof.
  apply (play_clip_repeat_returns_on_quit_or_step on_time (play_event_func rewind_then_quit)
           2 (mkClip 25 (12 - 5) 2) (loaded [5; 12]%Q)
           (mkState 0 1 [5; 12]%Q [Render 0; MusicPlay; ScreenFill; MusicLoad; AudioWrite])
           true (Some (-1))).
  reflexivity.
Defined.

(** X10: [play_clip] on a clip whose frame rate is 0 raises
    [ZeroDivisionError] once the audio is written and loaded; on a clip
    without frames it raises [StopIteration] in its first pass, the screen
    cleared but the playback of the audio not started and no frame shown. *)
Theorem play_clip_on_degenerate_clip
    (tick_at : nat -> Z) (event_func : clip -> nat -> bool -> M controls)
    (fuel : nat) (c : clip) (repeat : bool) (s : state) :
  ((fps c == 0)%Q ->
   play_clip tick_at event_func fuel c repeat s =
   Raise ZeroDivisionError
     (mkState (ticks_taken s) (polls_taken s) (step_timestamps s)
        (MusicLoad :: AudioWrite :: effects s))) /\
  (~ (fps c == 0)%Q -> nframes c = 0%nat ->
   play_clip tick_at event_func (S fuel) c repeat s =
   Raise StopIteration
     (mkState (ticks_taken s) (polls_taken s) (step_timestamps s)
        (ScreenFill :: MusicLoad :: AudioWrite :: effects s))).
Proof.
  split.
  - intros Hfps. unfold play_clip, bind. cbn [emit].
    apply Qeq_bool_iff in Hfps. by rewrite Hfps.
  - intros Hfps Hframes. unfold play_clip, bind. cbn [emit].
    destruct (Qeq_bool (fps c) 0) eqn:Heq; [by apply Qeq_bool_iff in Heq |].
    cbn [pass_loop]. unfold bind, one_pass, bind. cbn [emit]. by rewrite Hframes.
Qed.

Lemma play_clip_on_degenerate_clip_witness :
  play_clip on_time (play_event_func no_events) 1 (clip_25fps 0) true start =
  Raise StopIteration (mkState 0 0 [] [ScreenFill; MusicLoad; AudioWrite]).
Proof.
  apply (proj2 (play_clip_on_degenerate_clip on_time (play_event_func no_events) 0
                  (clip_25fps 0) true start)).
  - discriminate.
  - reflexivity.
Defined.

(** ** What holds when [play_clip] returns *)

Section ReturnsKeeping.

Variable R : state -> state -> Prop.
Hypothesis R_refl : forall s, R s s.
Hypothesis R_trans : forall s1 s2 s3, R s1 s2 -> R s2 s3 -> R s1 s3.

Lemma returns_keeping_ret {A} (a : A) : returns_keeping R (ret a).
Proof. intros s a' s' [= <- <-]. apply R_refl. Qed.

Lemma returns_keeping_bind {A B} (m : M A) (k : A -> M B) :
  returns_keeping R m -> (forall a, returns_keeping R (k a)) -> returns_keeping R (bind m k).
Proof.
  intros Hm Hk s b s' Hrun. unfold bind in Hrun.
  destruct (m s) as [a s1 | |] eqn:Hms; try discriminate.
  eapply R_trans; [by eapply Hm | by eapply Hk].
Qed.

Lemma returns_keeping_keeps {A} (m : M A) : keeps R m -> returns_keeping R m.
Proof. intros Hm s a s' Hrun. specialize (Hm s). unfold ends_in in Hm. by rewrite Hrun in Hm. Qed.

Section Loops.

Variable tick_at : nat -> Z.
Variable event_func : clip -> nat -> bool -> M controls.

Hypothesis returns_wait : forall fuel m d, returns_keeping R (wait_loop tick_at fuel m d).
Hypothesis returns_poll :
  forall fuel c m i d, returns_keeping R (poll_input tick_at event_func fuel c m i d).
Hypothesis returns_render : forall i, returns_keeping R (emit (Render i)).

Lemma returns_keeping_frame_body fuel c m i L :
  returns_keeping R (frame_body tick_at event_func fuel c m i L).
Proof.
  unfold frame_body. destruct (Qltb m (current_video_delay_ms L)).
  - apply returns_keeping_ret.
  - apply returns_keeping_bind; [apply returns_wait |]. intros d.
    unfold show_frame. apply returns_keeping_bind; [apply returns_render |].
    intros _. apply returns_poll.
Qed.

Lemma returns_keeping_frame_loop fuel c m frames L :
  returns_keeping R (frame_loop tick_at event_func fuel c m frames L).
Proof.
  revert L. induction frames as [| i frames IH]; intros L; cbn [frame_loop].
  - apply returns_keeping_ret.
  - apply returns_keeping_bind; [apply returns_keeping_frame_body |].
    intros [[] L']; [apply IH | apply returns_keeping_ret].
Qed.

Hypothesis returns_fill : returns_keeping R (emit ScreenFill).
Hypothesis returns_play : returns_keeping R (emit MusicPlay).

Lemma returns_keeping_one_pass fuel c m L :
  returns_keeping R (one_pass tick_at event_func fuel c m L).
Proof.
  unfold one_pass.
  apply returns_keeping_bind; [apply returns_fill |]. intros _.
  apply returns_keeping_bind.
  - destruct (Nat.eqb (nframes c) 0); [discriminate | apply returns_keeping_ret].
  - intros _. apply returns_keeping_bind; [apply returns_play |].
    intros _. apply returns_keeping_frame_loop.
Qed.

Lemma returns_keeping_read {A} (v : pyvar A) : returns_keeping R (read v).
Proof. destruct v; [discriminate | apply returns_keeping_ret]. Qed.

Lemma returns_keeping_pass_loop fuel c m repeat L :
  returns_keeping R (pass_loop tick_at event_func fuel c m repeat L).
Proof.
  revert L. induction fuel as [| fuel IH]; intros L; cbn [pass_loop]; [discriminate |].
  apply returns_keeping_bind; [apply returns_keeping_one_pass |]. intros L'.
  apply returns_keeping_bind.
  - unfold stop_looping. destruct (negb repeat); [apply returns_keeping_ret |].
    destruct (negb (running L')); [apply returns_keeping_ret |].
    apply returns_keeping_bind; [apply returns_keeping_read |].
    intros d. apply returns_keeping_ret.
  - intros [].
    + apply returns_keeping_bind; [apply returns_keeping_read |].
      intros d. apply returns_keeping_ret.
    + apply IH.
Qed.

Hypothesis returns_write : returns_keeping R (emit AudioWrite).
Hypothesis returns_load : returns_keeping R (emit MusicLoad).

Lemma returns_keeping_play_clip fuel c repeat :
  returns_keeping R (play_clip tick_at event_func fuel c repeat).
Proof.
  unfold play_clip.
  apply returns_keeping_bind; [apply returns_write |]. intros _.
  apply returns_keeping_bind; [apply returns_load |]. intros _.
  destruct (Qeq_bool (fps c) 0); [discriminate | apply returns_keeping_pass_loop].
Qed.

End Loops.

End ReturnsKeeping.

Lemma same_effects_refl (s : state) : same_effects s s.
Proof. reflexivity. Qed.

Lemma same_effects_trans (s1 s2 s3 : state) :
  same_effects s1 s2 -> same_effects s2 s3 -> same_effects s1 s3.
Proof. unfold same_effects. congruence. Qed.

Lemma pause_balanced_refl (s : state) : pause_balanced s s.
Proof. by exists []. Qed.

Lemma pauses_app (l1 l2 : list effect) : pauses (l1 ++ l2) = (pauses l1 + pauses l2)%nat.
Proof. induction l1 as [| [] l1 IH]; cbn; lia. Qed.

Lemma unpauses_app (l1 l2 : list effect) :
  unpauses (l1 ++ l2) = (unpauses l1 + unpauses l2)%nat.
Proof. induction l1 as [| [] l1 IH]; cbn; lia. Qed.

Lemma pause_balanced_trans (s1 s2 s3 : state) :
  pause_balanced s1 s2 -> pause_balanced s2 s3 -> pause_balanced s1 s3.
Proof.
  intros (new1 & H1 & Hb1) (new2 & H2 & Hb2). exists (new2 ++ new1). split.
  - rewrite H2, H1. apply app_assoc.
  - rewrite pauses_app, unpauses_app. lia.
Qed.

Lemma pause_balanced_same (s s' : state) : same_effects s s' -> pause_balanced s s'.
Proof. intros Hsame. by exists []. Qed.

Lemma pause_balanced_emit (e : effect) :
  pauses [e] = unpauses [e] -> returns_keeping pause_balanced (emit e).
Proof. intros He s a s' Hrun. injection Hrun as _ <-. by exists [e]. Qed.

Section Pauses.

Variable tick_at : nat -> Z.
Variable event_func : clip -> nat -> bool -> M controls.
Hypothesis handler_silent : silent event_func.

Lemma handler_same_effects c i paused : keeps same_effects (event_func c i paused).
Proof. intros s. apply handler_silent. Qed.

Lemma tick_same_effects : keeps same_effects (clock_tick tick_at).
Proof. intros s. reflexivity. Qed.

(** When the polling of a frame is over, the audio has been resumed if it
    was paused. *)
Lemma poll_input_balanced fuel c m i d :
  returns_keeping pause_balanced (poll_input tick_at event_func fuel c m i d).
Proof.
  intros s a s' Hrun. unfold poll_input, bind in Hrun.
  pose proof (handler_same_effects c i false s) as Hpoll. unfold ends_in in Hpoll.
  destruct (event_func c i false s) as [r s1 | |]; try discriminate. cbn in Hpoll.
  destruct (ctl_paused r) eqn:Hpaused; cbn [when emit ret] in Hrun.
  - set (s2 := mkState _ _ _ (MusicPause :: _)) in Hrun.
    pose proof (keeps_paused_loop same_effects same_effects_refl same_effects_trans
                  tick_at event_func tick_same_effects handler_same_effects fuel c i r s2)
      as Hloop. unfold ends_in in Hloop.
    destruct (paused_loop tick_at event_func fuel c i r s2) as [r' s3 | |];
      try discriminate. cbn in Hloop.
    exists [MusicUnpause; MusicPause]. split; [| reflexivity].
    destruct (negb (ctl_running r') || bool_decide (ctl_delta r' <> None));
      injection Hrun as _ <-; cbn; rewrite Hloop; subst s2; cbn; by rewrite Hpoll.
  - pose proof (keeps_paused_loop same_effects same_effects_refl same_effects_trans
                  tick_at event_func tick_same_effects handler_same_effects fuel c i r s1)
      as Hloop. unfold ends_in in Hloop.
    destruct (paused_loop tick_at event_func fuel c i r s1) as [r' s3 | |];
      try discriminate. cbn in Hloop.
    apply pause_balanced_same. unfold same_effects.
    destruct (negb (ctl_running r') || bool_decide (ctl_delta r' <> None));
      injection Hrun as _ <-; cbn; by rewrite Hloop, Hpoll.
Qed.

Lemma wait_loop_balanced fuel m d :
  returns_keeping pause_balanced (wait_loop tick_at fuel m d).
Proof.
  intros s a s' Hrun. apply pause_balanced_same.
  pose proof (keeps_wait_loop same_effects same_effects_refl same_effects_trans tick_at
                tick_same_effects fuel m d s) as Hwait.
  unfold ends_in in Hwait. by rewrite Hrun in Hwait.
Qed.

End Pauses.

(** X11: when [play_clip] returns, the audio has been resumed exactly as
    often as it was paused, also when the user left while the clip was
    paused. *)
Theorem play_clip_resumes_what_it_pauses
    (tick_at : nat -> Z) (event_func : clip -> nat -> bool -> M controls)
    (fuel : nat) (c : clip) (repeat : bool) (s s' : state) (r : bool * delta) :
  silent event_func ->
  play_clip tick_at event_func fuel c repeat s = Ok r s' ->
  exists new : list effect,
    effects s' = new ++ effects s /\ pauses new = unpauses new.
Proof.
  intros Hsilent Hrun.
  eapply (returns_keeping_play_clip pause_balanced pause_balanced_refl pause_balanced_trans
            tick_at event_func); [| | | | | | | exact Hrun];
    try (intros; by apply pause_balanced_emit).
  - intros. apply wait_loop_balanced.
  - intros. by apply poll_input_balanced.
Qed.

Lemma play_clip_resumes_what_it_pauses_witness :
  exists new : list effect,
    effects (mkState 1 2 [] [MusicUnpause; MusicPause; Render 0; MusicPlay; ScreenFill;
                             MusicLoad; AudioWrite]) = new ++ effects start /\
    pauses new = unpauses new.
Proof.
  apply (play_clip_resumes_what_it_pauses on_time
           (play_event_func (fun k => match k with
                                      | 0%nat => [KEYDOWN K_p false]
                                      | _ => [QUIT]
                                      end))
           2 (clip_25fps 2) true start
           (mkState 1 2 [] [MusicUnpause; MusicPause; Render 0; MusicPlay; ScreenFill;
                            MusicLoad; AudioWrite])
           (false, None)).
  - apply play_event_func_silent.
  - reflexivity.
Defined.

Lemma appends_frame_effects
    (tick_at : nat -> Z) (event_func : clip -> nat -> bool -> M controls)
    (fuel : nat) (c : clip) (m : Q) (frames : list nat) (L : locals) :
  silent event_func ->
  keeps (appends frame_effect) (frame_loop tick_at event_func fuel c m frames L).
Proof.
  intros Hsilent.
  apply keeps_frame_loop;
    auto using appends_refl, appends_tick, appends_silent.
  - apply appends_trans.
  - apply appends_emit. right. by left.
  - apply appends_emit. right. by right.
  - intros i. apply appends_emit. left. by exists i.
Qed.

(** X12: without [repeat], a call of [play_clip] that returns has made one
    pass: the audio was written, loaded and started once and the screen
    cleared once, and everything after that was showing frames and pausing
    or resuming the audio. *)
Theorem play_clip_once_makes_one_pass
    (tick_at : nat -> Z) (event_func : clip -> nat -> bool -> M controls)
    (fuel : nat) (c : clip) (s s' : state) (r : bool * delta) :
  silent event_func ->
  play_clip tick_at event_func fuel c false s = Ok r s' ->
  exists rest : list effect,
    trace s' = trace s ++ [AudioWrite; MusicLoad; ScreenFill; MusicPlay] ++ rest /\
    Forall frame_effect rest.
Proof.
  intros Hsilent Hrun. unfold play_clip, bind in Hrun. cbn [emit] in Hrun.
  destruct (Qeq_bool (fps c) 0); [discriminate |].
  destruct fuel as [| fuel]; [discriminate |].
  cbn [pass_loop] in Hrun. unfold bind, one_pass, bind in Hrun. cbn [emit] in Hrun.
  destruct (Nat.eqb (nframes c) 0); [discriminate |].
  cbn [ret ticks_taken polls_taken step_timestamps effects] in Hrun.
  set (s2 := mkState _ _ _ (MusicPlay :: _)) in Hrun.
  pose proof (appends_frame_effects tick_at event_func fuel c (1000 / fps c)
                (seq 0 (nframes c)) (mkLocals 0 true Unbound) Hsilent s2) as Hloop.
  unfold ends_in in Hloop.
  destruct (frame_loop tick_at event_func fuel c (1000 / fps c) (seq 0 (nframes c))
              (mkLocals 0 true Unbound) s2) as [L1 s1 | |]; try discriminate.
  cbn [final_state stop_looping negb ret] in Hloop, Hrun.
  destruct (step_delta L1) as [| d1]; cbn in Hrun; [discriminate |].
  injection Hrun as _ <-.
  destruct Hloop as (new & Hnew & Hall).
  exists (rev new). split; [| by apply Forall_rev].
  unfold trace. rewrite Hnew. subst s2. cbn [effects].
  rewrite rev_app_distr. cbn [rev]. by rewrite <- !app_assoc.
Qed.

Lemma play_clip_once_makes_one_pass_witness :
  exists rest : list effect,
    trace (mkState 4 4 []
             (rev [AudioWrite; MusicLoad; ScreenFill; MusicPlay;
                   Render 0; MusicPause; MusicUnpause; Render 1])) =
      trace start ++ [AudioWrite; MusicLoad; ScreenFill; MusicPlay] ++ rest /\
    Forall frame_effect rest.
Proof.
  apply (play_clip_once_makes_one_pass on_time (play_event_func advance_while_paused) 3
           (clip_25fps 2) start
           (mkState 4 4 []
              (rev [AudioWrite; MusicLoad; ScreenFill; MusicPlay;
                    Render 0; MusicPause; MusicUnpause; Render 1]))
           (true, None)).
  - apply play_event_func_silent.
  - vm_compute. reflexivity.
Defined.

(** ** The navigator, further *)

(** X13: the segments of consecutive indices meet: the segment of index
    [i] ends where the segment of index [i + 1] starts; and the segment of
    the last index ends at [int(video.duration)]. *)
Theorem consecutive_segments_meet (steps : list Q) (video_duration : Q) (i : Z)
    (seg : segment) :
  0 <= i ->
  segment_at steps video_duration i = inr seg ->
  (forall next : segment,
     segment_at steps video_duration (i + 1) = inr next -> clip_end seg = clip_start next) /\
  (Z.of_nat (length steps) <= i + 1 -> clip_end seg = inject_Z (py_int video_duration)).
Proof.
  intros Hi Hseg. unfold segment_at in Hseg.
  rewrite py_getitem_nonneg in Hseg by lia.
  destruct (steps !! Z.to_nat i) as [a |] eqn:Ha; [| discriminate]. split.
  - intros next Hnext. unfold segment_at in Hnext.
    rewrite py_getitem_nonneg in Hnext by lia.
    destruct (steps !! Z.to_nat (i + 1)) as [b |] eqn:Hb; [| discriminate].
    pose proof (lookup_lt_Some _ _ _ Hb) as Hlen.
    destruct (Z.ltb_spec (i + 1) (Z.of_nat (length steps))) as [_ | Hge]; [| lia].
    rewrite py_getitem_nonneg, Hb in Hseg by lia. injection Hseg as <-.
    destruct (i + 1 + 1 <? Z.of_nat (length steps)).
    + destruct (py_getitem steps (i + 1 + 1)); [| discriminate].
      by injection Hnext as <-.
    + by injection Hnext as <-.
  - intros Hlast.
    destruct (Z.ltb_spec (i + 1) (Z.of_nat (length steps))) as [Hlt | _]; [lia |].
    by injection Hseg as <-.
Qed.

Lemma consecutive_segments_meet_witness :
  (forall next : segment,
     segment_at [5; 12; 17]%Q 20 (0 + 1) = inr next ->
     clip_end (mkSegment 5 12) = clip_start next) /\
  (Z.of_nat (length [5; 12; 17]%Q) <= 0 + 1 ->
   clip_end (mkSegment 5 12) = inject_Z (py_int 20)).
Proof.
  apply (consecutive_segments_meet [5; 12; 17]%Q 20 0 (mkSegment 5 12)).
  - lia.
  - reflexivity.
Defined.

Section PlayStepsKeeps.

Variable R : state -> state -> Prop.
Hypothesis R_refl : forall s, R s s.
Hypothesis R_trans : forall s1 s2 s3, R s1 s2 -> R s2 s3 -> R s1 s3.

Variable tick_at : nat -> Z.
Variable events_at : nat -> list event.
Variable subclip : clip -> Q -> Q -> exn + clip.

Hypothesis keeps_playing :
  forall fuel c, keeps R (play_clip tick_at (play_event_func events_at) fuel c true).

Lemma keeps_play_steps fuel video running step_idx :
  keeps R (play_steps tick_at events_at subclip fuel video running step_idx).
Proof.
  revert running step_idx. induction fuel as [| fuel IH]; intros running step_idx;
    cbn [play_steps]; (apply keeps_bind; [done | done | intros s; apply R_refl |]);
    intros steps; destruct (running && (step_idx <? Z.of_nat (length steps)));
    try (by apply keeps_ret); try (by apply keeps_out_of_fuel).
  apply keeps_bind; [done | done | by apply keeps_lift |]. intros seg.
  destruct (subclip video (clip_start seg) (clip_end seg)) as [[] | c];
    try (by apply keeps_raise); try (by apply keeps_ret).
  apply keeps_bind; [done | done | apply keeps_playing |]. intros [running1 d]. apply IH.
Qed.

End PlayStepsKeeps.

Lemma play_steps_same_steps (tick_at : nat -> Z) (events_at : nat -> list event)
    (subclip : clip -> Q -> Q -> exn + clip) (fuel : nat) (video : clip) (running : bool)
    (step_idx : Z) :
  keeps same_steps (play_steps tick_at events_at subclip fuel video running step_idx).
Proof.
  apply keeps_play_steps; [apply same_steps_refl | apply same_steps_trans |].
  intros fuel' c. apply play_clip_same_steps.
Qed.

(** X14: playback only reads: however the playback loop ends, the step
    list is as it was; and a session of [main] that finds stored steps and
    returns leaves the database as it found it and the step list as it was
    read. *)
Theorem playback_only_reads
    (tick_at : nat -> Z) (events_at : nat -> list event)
    (subclip : clip -> Q -> Q -> exn + clip)
    (json_dumps : list Q -> string) (json_loads : string -> option (list Q))
    (fuel : nat) (video_path : string) (video : clip)
    (database : gmap string (list byte)) (s : state) :
  (forall (running : bool) (step_idx : Z),
     step_timestamps
       (final_state (play_steps tick_at events_at subclip fuel video running step_idx s))
     = step_timestamps s) /\
  (forall (steps : list Q) (database' : gmap string (list byte)) (s' : state),
     get_timestamps_for_video json_loads database video_path = inr steps ->
     steps <> [] ->
     main tick_at events_at subclip json_dumps json_loads fuel false video_path video
       database s = Ok database' s' ->
     database' = database /\ step_timestamps s' = steps).
Proof.
  split.
  - intros running step_idx. apply play_steps_same_steps.
  - intros steps database' s' Hget Hsteps Hrun.
    unfold main, bind in Hrun. rewrite Hget in Hrun. cbn [lift ret set_steps] in Hrun.
    destruct steps as [| x steps]; [done |]. cbn [length Nat.eqb ret] in Hrun.
    set (s1 := mkState _ _ (x :: steps) _) in Hrun.
    pose proof (play_steps_same_steps tick_at events_at subclip fuel video true 0 s1)
      as Hsame. unfold ends_in, same_steps in Hsame.
    destruct (play_steps tick_at events_at subclip fuel video true 0 s1) as [a s2 | |];
      try discriminate.
    cbn in Hrun, Hsame. injection Hrun as <- <-. by split.
Qed.

Lemma playback_only_reads_witness :
  set_timestamps_for_video dumps_whole_seconds ∅ "/videos/a.mp4" [5; 12]%Q =
    set_timestamps_for_video dumps_whole_seconds ∅ "/videos/a.mp4" [5; 12]%Q /\
  step_timestamps
    (mkState 0 2 [5; 12]%Q
       [PygameQuit; Render 0; MusicPlay; ScreenFill; MusicLoad; AudioWrite;
        Render 0; MusicPlay; ScreenFill; MusicLoad; AudioWrite]) = [5; 12]%Q.
Proof.
  apply (proj2 (playback_only_reads on_time rewind_then_quit subclip_25fps
                  dumps_whole_seconds loads_whole_seconds 3 "/videos/a.mp4" video_20s
                  (set_timestamps_for_video dumps_whole_seconds ∅ "/videos/a.mp4" [5; 12]%Q)
                  start) [5; 12]%Q).
  - reflexivity.
  - discriminate.
  - vm_compute. reflexivity.
Defined.

Lemma play_steps_not_running (tick_at : nat -> Z) (events_at : nat -> list event)
    (subclip : clip -> Q -> Q -> exn + clip) (fuel : nat) (video : clip) (step_idx : Z)
    (s : state) :
  play_steps tick_at events_at subclip fuel video false step_idx s = Ok (false, step_idx) s.
Proof. by destruct fuel. Qed.

Lemma play_clip_repeat_result
    (tick_at : nat -> Z) (event_func : clip -> nat -> bool -> M controls)
    (fuel : nat) (c : clip) (s s' : state) (r : bool) (d : delta) :
  play_clip tick_at event_func fuel c true s = Ok (r, d) s' ->
  r = false \/ d = Some 1 \/ d = Some (-1).
Proof.
  unfold play_clip, bind. cbn [emit].
  destruct (Qeq_bool (fps c) 0); [discriminate |].
  apply pass_loop_repeat_result.
Qed.

(** X15: from an index that is at most the length of the step list, the
    playback loop is left either with [running] false or with the index
    equal to the length of the list, one past the last step and never
    further. *)
Theorem play_steps_ends_at_quit_or_past_last_step
    (tick_at : nat -> Z) (events_at : nat -> list event)
    (subclip : clip -> Q -> Q -> exn + clip)
    (fuel : nat) (video : clip) (running : bool) (step_idx : Z) (s s' : state)
    (running' : bool) (step_idx' : Z) :
  step_idx <= Z.of_nat (length (step_timestamps s)) ->
  play_steps tick_at events_at subclip fuel video running step_idx s
    = Ok (running', step_idx') s' ->
  running' = false \/ step_idx' = Z.of_nat (length (step_timestamps s)).
Proof.
  revert running step_idx s.
  induction fuel as [| fuel IH]; intros running step_idx s Hidx Hrun;
    cbn [play_steps] in Hrun; unfold bind, get_steps in Hrun;
    destruct running; cbn [andb] in Hrun;
    try (injection Hrun as <- _ _; by left);
    destruct (Z.ltb_spec step_idx (Z.of_nat (length (step_timestamps s)))) as [Hlt | Hge];
    try discriminate;
    try (injection Hrun as _ <- _; right; lia).
  destruct (segment_at (step_timestamps s) (duration video) step_idx) as [e | seg];
    cbn [lift raise ret] in Hrun; [discriminate |].
  destruct (subclip video (clip_start seg) (clip_end seg)) as [[] | c]; try discriminate.
  - injection Hrun as <- _ _. by left.
  - pose proof (play_clip_same_steps tick_at events_at fuel c true s) as Hsame.
    unfold ends_in, same_steps in Hsame.
    destruct (play_clip tick_at (play_event_func events_at) fuel c true s)
      as [[running1 d] s1 | |] eqn:Hplay; try discriminate.
    cbn in Hsame. rewrite <- Hsame.
    apply play_clip_repeat_result in Hplay as [-> | Hstep].
    + rewrite play_steps_not_running in Hrun. injection Hrun as <- _ _. by left.
    + eapply IH; [| exact Hrun]. rewrite Hsame. unfold next_step_idx.
      destruct Hstep as [-> | ->]; cbn; lia.
Qed.

Lemma play_steps_ends_at_quit_or_past_last_step_witness :
  false = false \/ 0 = Z.of_nat (length (step_timestamps (loaded [5; 12]%Q))).
Proof.
  apply (play_steps_ends_at_quit_or_past_last_step on_time rewind_then_quit subclip_25fps 3
           video_20s true 0 (loaded [5; 12]%Q)
           (mkState 0 2 [5; 12]%Q
              [Render 0; MusicPlay; ScreenFill; MusicLoad; AudioWrite;
               Render 0; MusicPlay; ScreenFill; MusicLoad; AudioWrite])
           false 0).
  - cbn. lia.
  - vm_compute. reflexivity.
Defined.

Lemma play_clip_no_pygame_quit
    (tick_at : nat -> Z) (event_func : clip -> nat -> bool -> M controls)
    (fuel : nat) (c : clip) (repeat : bool) :
  silent event_func ->
  keeps (appends not_pygame_quit) (play_clip tick_at event_func fuel c repeat).
Proof.
  intros Hsilent.
  apply keeps_play_clip;
    auto using appends_refl, appends_tick, appends_silent;
    try (intros; apply appends_emit; discriminate);
    try (apply appends_emit; discriminate).
  apply appends_trans.
Qed.

Lemma not_pygame_quit_appends (s s' : state) :
  ~ In PygameQuit (effects s) -> appends not_pygame_quit s s' ->
  ~ In PygameQuit (effects s').
Proof.
  intros Hs (new & -> & Hall) Hin. apply in_app_or in Hin as [Hin | Hin]; [| done].
  rewrite Forall_forall in Hall. apply (Hall PygameQuit); [| reflexivity].
  by apply list_elem_of_In.
Qed.

(** X16: [main] calls [pygame.quit()] exactly when it returns: if it
    returns, [pygame.quit()] is the last thing it did and it did it once; if
    an exception leaves it, [pygame.quit()] was not called. *)
Theorem main_quits_pygame_only_when_it_returns
    (tick_at : nat -> Z) (events_at : nat -> list event)
    (subclip : clip -> Q -> Q -> exn + clip)
    (json_dumps : list Q -> string) (json_loads : string -> option (list Q))
    (fuel : nat) (record : bool) (video_path : string) (video : clip)
    (database : gmap string (list byte)) (s : state) :
  ~ In PygameQuit (effects s) ->
  match main tick_at events_at subclip json_dumps json_loads fuel record video_path video
          database s with
  | Ok _ s' => exists rest, effects s' = PygameQuit :: rest /\ ~ In PygameQuit rest
  | Raise _ s' => ~ In PygameQuit (effects s')
  | OutOfFuel s' => ~ In PygameQuit (effects s')
  end.
Proof.
  intros Hs. unfold main.
  set (P := fun s' : state => ~ In PygameQuit (effects s')).
  assert (forall (running : bool) (database1 : gmap string (list byte)) (s1 : state),
            P s1 ->
            match bind (play_steps tick_at events_at subclip fuel video running 0)
                    (fun _ => bind (emit PygameQuit) (fun _ => ret database1)) s1 with
            | Ok _ s' => exists rest, effects s' = PygameQuit :: rest /\ ~ In PygameQuit rest
            | Raise _ s' | OutOfFuel s' => P s'
            end) as Hplay.
  { intros running database1 s1 Hs1. unfold bind.
    pose proof (keeps_play_steps (appends not_pygame_quit) (appends_refl _) (appends_trans _)
                  tick_at events_at subclip
                  (fun fuel' c =>
                     play_clip_no_pygame_quit tick_at (play_event_func events_at) fuel' c true
                       (play_event_func_silent events_at))
                  fuel video running 0 s1) as Hkeeps.
    unfold ends_in in Hkeeps.
    destruct (play_steps tick_at events_at subclip fuel video running 0 s1) as [a s2 | e s2 | s2];
      cbn in Hkeeps |- *; try (by eapply not_pygame_quit_appends).
    eexists. split; [reflexivity |]. by eapply not_pygame_quit_appends. }
  unfold bind at 1.
  destruct (if record then ret []
            else lift (get_timestamps_for_video json_loads database video_path)) as
    [loaded0 s0 | e s0 | s0] eqn:Hload.
  - assert (s0 = s) as ->.
    { destruct record; [by injection Hload |].
      destruct (get_timestamps_for_video json_loads database video_path);
        [discriminate | by injection Hload]. }
    unfold bind at 1. cbn [set_steps].
    set (s1 := mkState _ _ loaded0 _).
    assert (P s1) as Hs1 by exact Hs.
    unfold bind at 1.
    destruct (Nat.eqb (length loaded0) 0).
    + unfold record_steps. unfold bind at 1 2.
      pose proof (play_clip_no_pygame_quit tick_at (record_event_func events_at) fuel video
                    false (record_event_func_silent events_at) s1) as Hrec.
      unfold ends_in in Hrec.
      destruct (play_clip tick_at (record_event_func events_at) fuel video false s1)
        as [[running1 d] s2 | e s2 | s2]; cbn in Hrec |- *;
        try (by eapply not_pygame_quit_appends).
      apply Hplay. by eapply not_pygame_quit_appends.
    + cbn [ret]. by apply Hplay.
  - destruct record; [discriminate |].
    destruct (get_timestamps_for_video json_loads database video_path);
      [| discriminate]. by injection Hload as _ <-.
  - destruct record; [discriminate |].
    by destruct (get_timestamps_for_video json_loads database video_path).
Qed.

Lemma main_quits_pygame_only_when_it_returns_witness :
  match main on_time rewind_then_quit subclip_25fps dumps_whole_seconds loads_whole_seconds
          3 false "/videos/a.mp4" video_20s
          (set_timestamps_for_video dumps_whole_seconds ∅ "/videos/a.mp4" [5; 12]%Q) start
  with
  | Ok _ s' => exists rest, effects s' = PygameQuit :: rest /\ ~ In PygameQuit rest
  | Raise _ s' => ~ In PygameQuit (effects s')
  | OutOfFuel s' => ~ In PygameQuit (effects s')
  end.
Proof.
  apply (main_quits_pygame_only_when_it_returns on_time rewind_then_quit subclip_25fps
           dumps_whole_seconds loads_whole_seconds 3 false "/videos/a.mp4" video_20s
           (set_timestamps_for_video dumps_whole_seconds ∅ "/videos/a.mp4" [5; 12]%Q) start).
  cbn. tauto.
Defined.



(** ** The timestamp store, further *)

(** X18: writing the timestamps of one video changes nothing of what is
    read for another; the error for an unreadable row of the other video
    stays as well. *)
Theorem set_timestamps_leaves_other_videos {T : Type}
    (json_dumps : list T -> string) (json_loads : string -> option (list T))
    (cursor : gmap string (list byte)) (video_path other_path : string)
    (timestamps : list T) :
  video_path <> other_path ->
  get_timestamps_for_video json_loads
    (set_timestamps_for_video json_dumps cursor video_path timestamps) other_path =
  get_timestamps_for_video json_loads cursor other_path.
Proof.
  intros Hother. unfold get_timestamps_for_video, set_timestamps_for_video.
  by rewrite lookup_insert_ne.
Qed.

Lemma set_timestamps_leaves_other_videos_witness :
  get_timestamps_for_video IntJson.loads
    (set_timestamps_for_video IntJson.dumps
       (set_timestamps_for_video IntJson.dumps ∅ "/videos/b.mp4" [7])
       "/videos/a.mp4" [5; 12]) "/videos/b.mp4" =
  get_timestamps_for_video IntJson.loads
    (set_timestamps_for_video IntJson.dumps ∅ "/videos/b.mp4" [7]) "/videos/b.mp4".
Proof.
  apply (set_timestamps_leaves_other_videos IntJson.dumps IntJson.loads
           (set_timestamps_for_video IntJson.dumps ∅ "/videos/b.mp4" [7])
           "/videos/a.mp4" "/videos/b.mp4" [5; 12]).
  discriminate.
Defined.

(** X19: the table keeps one row per video: a second write for a video
    replaces the first, so that the table is as if only the second had been
    made and has as many rows as after the first; writes for different
    videos can be made in either order. *)
Theorem set_timestamps_upserts {T : Type} (json_dumps : list T -> string)
    (cursor : gmap string (list byte)) (video_path : string) (first second : list T) :
  set_timestamps_for_video json_dumps
    (set_timestamps_for_video json_dumps cursor video_path first) video_path second =
  set_timestamps_for_video json_dumps cursor video_path second /\
  size (set_timestamps_for_video json_dumps
          (set_timestamps_for_video json_dumps cursor video_path first) video_path second) =
  size (set_timestamps_for_video json_dumps cursor video_path first) /\
  (forall (other_path : string) (other : list T),
     video_path <> other_path ->
     set_timestamps_for_video json_dumps
       (set_timestamps_for_video json_dumps cursor video_path first) other_path other =
     set_timestamps_for_video json_dumps
       (set_timestamps_for_video json_dumps cursor other_path other) video_path first).
Proof.
  unfold set_timestamps_for_video. split; [apply insert_insert_eq |]. split.
  - rewrite insert_insert_eq.
    destruct (cursor !! video_path) as [blob |] eqn:Hrow.
    + by rewrite !map_size_insert_Some.
    + by rewrite !map_size_insert_None.
  - intros other_path other Hother. by apply insert_insert_ne.
Qed.

Lemma set_timestamps_upserts_witness :
  set_timestamps_for_video IntJson.dumps
    (set_timestamps_for_video IntJson.dumps ∅ "/videos/a.mp4" [5; 12]) "/videos/b.mp4" [7] =
  set_timestamps_for_video IntJson.dumps
    (set_timestamps_for_video IntJson.dumps ∅ "/videos/b.mp4" [7]) "/videos/a.mp4" [5; 12].
Proof.
  apply (proj2 (proj2 (set_timestamps_upserts IntJson.dumps ∅ "/videos/a.mp4" [5; 12] [9]))).
  discriminate.
Defined.
